(** * Topic segmentation of question/answer conversations

    A shallow embedding of [group_topics.py]: keyword extraction, Jaccard
    similarity, the change-point detector, the two merge passes and the
    orchestrator [group_qa_into_topics], followed by the properties the
    specification states about them.

    Conventions of the embedding.
    - A Python [str] is the list of its code points ([pystr]).
    - [str.lower()], [str.title()] and the regex class [\w] (which decides
      [\b]) come from the interpreter's Unicode tables; they are the fields
      of the class [Unicode], and every definition and theorem is generic in
      them.  An ASCII instance is given for evaluating concrete
      conversations.
    - A Python [set] of strings is a [gset pystr].
    - Similarity scores are Python floats obtained by dividing two set
      sizes; they are modelled as exact rationals ([Q]), and the literals
      [0.05], [0.02], [0.8] and [5] as the rationals they denote.  The
      comparisons the code makes agree with the exact ones: a quotient of
      two sizes is correctly rounded, so it meets [0.05], [0.05 * 2],
      [0.02] or [5] exactly when the rational does (and [0.8 * 0.0625] is
      [0.05] in floating point as well), and away from equality the gap is
      at least [1 / (20 * size)], far above the rounding error for every
      set a machine can hold.  The program only ever runs the detector with
      the default threshold; with another threshold the rounded product by
      [0.8] can fall on the other side of it ([0.7 * 0.8] is below [0.56] in
      floating point), so the description of the reported indices by the
      three signals is stated at the default threshold.
    - Indices are [nat]; [max(0, i - k)] is kept as written although the
      subtraction of [nat] already truncates.  A read [l[i]] is a total
      lookup: every index the loops read lies in [range(len(l))] (the
      detector reads [i - 1], [i] and [j] with [1 <= i < n] and [j < i],
      and [i + 1] only under the test [i + 1 < n]; the merge reads
      [merge_idx + 1] with [merge_idx < n - 1]), so the [IndexError] of
      Python never arises. *)

From Stdlib Require Import QArith Qminmax.
From Stdlib Require Import Ascii String DecimalString.
From stdpp Require Import gmap list sorting.

Local Open Scope nat_scope.

(** ** Python strings *)

Abbreviation pystr := (list N) (only parsing).

Definition cps (s : string) : pystr :=
  (λ a, N.of_nat (nat_of_ascii a)) <$> list_ascii_of_string s.

(** The part of the interpreter's Unicode database the module relies on. *)
Class Unicode : Type := {
  str_lower : pystr → pystr;   (* [str.lower()] *)
  str_title : pystr → pystr;   (* [str.title()] *)
  is_word : N → bool           (* membership in the regex class [\w] *)
}.

(** ** The token pattern [\b[a-zA-Z\u4e00-\u9fff]+\b] *)

Definition in_range (lo hi c : N) : bool := ((lo <=? c) && (c <=? hi))%N.

Definition in_class (c : N) : bool :=
  in_range 97 122 c || in_range 65 90 c || in_range 19968 40959 c.

Section Regex.
Context `{U : Unicode}.

(** [\w] on a neighbour that may be the start or the end of the text. *)
Definition word_side (o : option N) : bool :=
  match o with Some c => is_word c | None => false end.

(** [\b] between two neighbouring positions. *)
Definition boundary (before after : option N) : bool :=
  xorb (word_side before) (word_side after).

(** Length of the greedy run [[a-zA-Z\u4e00-\u9fff]+] at the head. *)
Fixpoint class_run (s : pystr) : nat :=
  match s with
  | c :: s' => if in_class c then S (class_run s') else 0
  | [] => 0
  end.

(** Backtracking of the greedy run: the longest prefix of [k] down to one
    character that is followed by [\b]. *)
Fixpoint backtrack (k : nat) (s : pystr) : option nat :=
  match k with
  | 0 => None
  | S k' => if boundary (s !! k') (s !! k) then Some k else backtrack k' s
  end.

(** The pattern tried at the head of [s], [prev] being the character
    before it: the length of the match, if there is one. *)
Definition match_here (prev : option N) (s : pystr) : option nat :=
  if boundary prev (head s) then backtrack (class_run s) s else None.

(** [re.findall]: leftmost matches, not overlapping.  [skip] counts the
    characters ahead that the last match already consumed. *)
Fixpoint scan (prev : option N) (skip : nat) (s : pystr) : list pystr :=
  match s with
  | [] => []
  | c :: s' =>
      match skip with
      | S k => scan (Some c) k s'
      | 0 =>
          match match_here prev s with
          | Some k => take k s :: scan (Some c) (k - 1) s'
          | None => scan (Some c) 0 s'
          end
      end
  end.

Definition findall (s : pystr) : list pystr := scan None 0 s.
End Regex.

(** ** Stop words *)

Definition STOP_WORDS_list : list string := [
  "i"; "me"; "my"; "myself"; "we"; "our"; "ours"; "ourselves"; "you"; "your";
  "yours"; "yourself"; "yourselves"; "he"; "him"; "his"; "himself"; "she";
  "her"; "hers"; "herself"; "it"; "its"; "itself"; "they"; "them"; "their";
  "theirs"; "themselves"; "what"; "which"; "who"; "whom"; "this"; "that";
  "these"; "those"; "am"; "is"; "are"; "was"; "were"; "be"; "been"; "being";
  "have"; "has"; "had"; "having"; "do"; "does"; "did"; "doing"; "a"; "an";
  "the"; "and"; "but"; "if"; "or"; "because"; "as"; "until"; "while"; "of";
  "at"; "by"; "for"; "with"; "about"; "against"; "between"; "into"; "through";
  "during"; "before"; "after"; "above"; "below"; "to"; "from"; "up"; "down";
  "in"; "out"; "on"; "off"; "over"; "under"; "again"; "further"; "then";
  "once"; "here"; "there"; "when"; "where"; "why"; "how"; "all"; "each";
  "few"; "more"; "most"; "other"; "some"; "such"; "no"; "nor"; "not"; "only";
  "own"; "same"; "so"; "than"; "too"; "very"; "s"; "t"; "can"; "will"; "just";
  "don"; "should"; "now"; "d"; "ll"; "m"; "o"; "re"; "ve"; "y"; "ain"; "aren";
  "couldn"; "didn"; "doesn"; "hadn"; "hasn"; "haven"; "isn"; "ma"; "mightn";
  "mustn"; "needn"; "shan"; "shouldn"; "wasn"; "weren"; "won"; "wouldn";
  "could"; "would"; "might"; "must"; "shall"; "want"; "like"; "need"; "also";
  "get"; "got"; "make"; "made"; "know"; "think"; "say"; "said"; "see"; "look";
  "come"; "go"; "going"; "one"; "two"; "first"; "way"; "may"; "part"; "use";
  "using"; "used"; "please"; "help"; "thanks"; "thank"; "okay"; "ok"; "yes";
  "yeah"; "sure"; "right"; "well"; "good"; "great"; "really"; "actually";
  "basically"; "something"; "anything"; "everything"; "nothing"; "someone";
  "anyone"; "everyone"; "thing"; "things"; "time"; "much"; "many"; "even";
  "still"; "back"; "being"; "trying"; "try"; "let"; "give"; "take"; "put"
]%string.

Definition STOP_WORDS : gset pystr := list_to_set (cps <$> STOP_WORDS_list).

(** ** Turns, keywords and similarity *)

(** One question/answer exchange.  [None] is a key that the dictionary does
    not have (or holds [None]): the code reads both as empty text. *)
Record Turn : Type := {
  question : option pystr;
  answer : option pystr;
  timestamp : option Q
}.

Definition DEFAULT_MIN_LENGTH : nat := 3.

Section Keywords.
Context `{U : Unicode}.

Definition extract_keywords (text : pystr) (min_length : nat) : list pystr :=
  match text with
  | [] => []
  | _ =>
      let words := findall (str_lower text) in
      filter (λ w, (w ∉ STOP_WORDS) ∧ (min_length ≤ length w)) words
  end.

(** [qa.get(key, "")] followed by [extract_keywords]. *)
Definition keywords_of (field : option pystr) : list pystr :=
  extract_keywords (default [] field) DEFAULT_MIN_LENGTH.

Definition get_keyword_set (qa : Turn) : gset pystr :=
  let question_keywords := keywords_of (question qa) in
  let answer_keywords := take 50 (keywords_of (answer qa)) in
  list_to_set (question_keywords ++ answer_keywords).
End Keywords.

(** True division of two sizes, the divisor being positive. *)
Definition pydiv (a b : nat) : Q := Z.of_nat a # Pos.of_nat b.

Definition Qltb (x y : Q) : bool := negb (Qle_bool y x).

Definition calculate_similarity (keywords1 keywords2 : gset pystr) : Q :=
  if bool_decide (keywords1 = ∅) || bool_decide (keywords2 = ∅) then 0%Q
  else
    let intersection := size (keywords1 ∩ keywords2) in
    let union := size (keywords1 ∪ keywords2) in
    if 0 <? union then pydiv intersection union else 0%Q.

(** ** An ASCII instance of the Unicode tables *)

Definition ascii_lower_cp (c : N) : N :=
  if in_range 65 90 c then (c + 32)%N else c.

Definition ascii_upper_cp (c : N) : N :=
  if in_range 97 122 c then (c - 32)%N else c.

Definition ascii_cased (c : N) : bool := in_range 97 122 c || in_range 65 90 c.

(** [str.title()]: a cased character is upper-cased after an uncased one (or
    at the start) and lower-cased after a cased one. *)
Fixpoint ascii_title (previous_is_cased : bool) (s : pystr) : pystr :=
  match s with
  | [] => []
  | c :: s' =>
      (if previous_is_cased then ascii_lower_cp c else ascii_upper_cp c)
        :: ascii_title (ascii_cased c) s'
  end.

Definition ascii_is_word (c : N) : bool :=
  in_range 97 122 c || in_range 65 90 c || in_range 48 57 c || (c =? 95)%N
  || in_range 19968 40959 c.

Definition ascii_unicode : Unicode :=
  {| str_lower := fmap ascii_lower_cp;
     str_title := ascii_title false;
     is_word := ascii_is_word |}.

(** ** Change-point detector *)

(** [range(a, b)] *)
Definition range (a b : nat) : list nat := seq a (b - a).

Definition DEFAULT_THRESHOLD : Q := 5 # 100.

Section Detector.
Context `{U : Unicode}.

(** The context built at position [i]: the keywords of turn [i] and of
    the five turns before it. *)
Definition context_at (keyword_sets : list (gset pystr)) (i : nat)
  : gset pystr :=
  let start_idx := max 0 (i - 5) in
  foldl (λ context j, context ∪ keyword_sets !!! j) ∅
        (range start_idx (i + 1)).

Definition cumulative_contexts (keyword_sets : list (gset pystr))
  : list (gset pystr) :=
  context_at keyword_sets <$> range 0 (length keyword_sets).

Definition sim_prev (keyword_sets : list (gset pystr)) (i : nat) : Q :=
  calculate_similarity (keyword_sets !!! (i - 1)) (keyword_sets !!! i).

Definition sim_context (keyword_sets : list (gset pystr)) (i : nat) : Q :=
  calculate_similarity (cumulative_contexts keyword_sets !!! (i - 1))
                       (keyword_sets !!! i).

Definition max_recent_sim (keyword_sets : list (gset pystr)) (i : nat) : Q :=
  foldl (λ max_recent_sim j,
           let sim :=
             calculate_similarity (keyword_sets !!! j) (keyword_sets !!! i) in
           Qmax max_recent_sim sim)
        (sim_prev keyword_sets i)
        (range (max 0 (i - 3)) i).

Definition best_similarity (keyword_sets : list (gset pystr)) (i : nat) : Q :=
  Qmax (Qmax (sim_prev keyword_sets i) (sim_context keyword_sets i * (8 # 10)))
       (max_recent_sim keyword_sets i).

(** The look-ahead of the loop body: a following turn exists and it
    connects back to the turn before the candidate. *)
Definition next_reconnects (keyword_sets : list (gset pystr))
    (threshold : Q) (n i : nat) : bool :=
  if i + 1 <? n then
    let next_sim_to_prev :=
      calculate_similarity (keyword_sets !!! (i - 1))
                           (keyword_sets !!! (i + 1)) in
    Qltb (threshold * 2) next_sim_to_prev
  else false.

(** One iteration of the main loop. *)
Definition shift_body (keyword_sets : list (gset pystr)) (threshold : Q)
    (n : nat) (shifts : list nat) (i : nat) : list nat :=
  if Qltb (best_similarity keyword_sets i) threshold then
    if next_reconnects keyword_sets threshold n i then shifts
    else shifts ++ [i]
  else shifts.

Definition detect_topic_shifts (qa_pairs : list Turn) (threshold : Q)
  : list nat :=
  if length qa_pairs <=? 3 then []
  else
    let keyword_sets := get_keyword_set <$> qa_pairs in
    foldl (shift_body keyword_sets threshold (length qa_pairs)) []
          (range 1 (length qa_pairs)).
End Detector.

(** ** Segment namer *)

Definition TOPIC_KEYWORDS_table : list (string * list string) := [
  ("code", ["code"; "programming"; "function"; "variable"; "debug"; "error";
            "bug"; "script"]);
  ("api", ["api"; "endpoint"; "request"; "response"; "http"; "rest"; "fetch"]);
  ("design", ["design"; "ui"; "ux"; "layout"; "style"; "css"; "color"; "font"]);
  ("database", ["database"; "sql"; "query"; "table"; "data"; "schema";
                "mongodb"]);
  ("career", ["job"; "interview"; "resume"; "career"; "work"; "company";
              "position"]);
  ("health", ["health"; "medical"; "symptom"; "pain"; "medication"; "doctor";
              "treatment"]);
  ("finance", ["money"; "investment"; "stock"; "price"; "budget"; "cost";
               "financial"]);
  ("writing", ["write"; "email"; "message"; "draft"; "letter"; "text";
               "rephrase"]);
  ("translation", ["translate"; "meaning"; "chinese"; "english"; "spanish";
                   "word"]);
  ("learning", ["learn"; "study"; "course"; "understand"; "explain";
                "concept"]);
  ("travel", ["travel"; "trip"; "flight"; "hotel"; "airport"; "vacation"]);
  ("food", ["food"; "recipe"; "cook"; "restaurant"; "meal"; "eat"; "drink"]);
  ("relationships", ["relationship"; "friend"; "date"; "love"; "feel";
                     "emotion"]);
  ("project", ["project"; "app"; "build"; "create"; "develop"; "implement"]);
  ("advice", ["advice"; "recommend"; "suggest"; "opinion"; "think"; "should"])
]%string.

(** The dictionary in insertion order. *)
Definition TOPIC_KEYWORDS : list (pystr * list pystr) :=
  (λ kv : string * list string, (cps kv.1, cps <$> kv.2))
    <$> TOPIC_KEYWORDS_table.

(** [d.get(key, default)] on a dictionary kept in insertion order. *)
Definition dict_get {V} (d : list (pystr * V)) (key : pystr) (dflt : V) : V :=
  default dflt (snd <$> find (λ kv, bool_decide (kv.1 = key)) d).

(** [collections.Counter]: counts in order of first occurrence. *)
Fixpoint counter_add (w : pystr) (c : list (pystr * nat))
  : list (pystr * nat) :=
  match c with
  | [] => [(w, 1)]
  | (k, v) :: c' =>
      if decide (k = w) then (k, S v) :: c' else (k, v) :: counter_add w c'
  end.

Definition Counter (words : list pystr) : list (pystr * nat) :=
  foldl (λ c w, counter_add w c) [] words.

(** Insertion below every entry whose count is at least as large: the
    stable descending order of [most_common]. *)
Fixpoint insert_by_count (kv : pystr * nat) (sorted : list (pystr * nat))
  : list (pystr * nat) :=
  match sorted with
  | [] => [kv]
  | x :: rest =>
      if x.2 <? kv.2 then kv :: x :: rest else x :: insert_by_count kv rest
  end.

Definition most_common (n : nat) (c : list (pystr * nat))
  : list (pystr * nat) :=
  take n (foldl (λ sorted kv, insert_by_count kv sorted) [] c).

(** [max(d, key=d.get)]: the first key that carries the largest value. *)
Definition max_by_value (d : list (pystr * nat)) : option pystr :=
  fst <$> foldl (λ best kv,
                   match best with
                   | None => Some kv
                   | Some b => if b.2 <? kv.2 then Some kv else Some b
                   end) None d.

(** Decimal rendering of an integer inside an f-string. *)
Definition str_of_nat (n : nat) : pystr :=
  cps (NilEmpty.string_of_uint (Nat.to_uint n)).

Section Namer.
Context `{U : Unicode}.

Definition discussion_name (index : nat) : pystr :=
  cps "Discussion " ++ str_of_nat (index + 1).

Definition generate_topic_name (qa_group : list Turn) (index : nat) : pystr :=
  let all_keywords :=
    foldl (λ acc qa, acc ++ keywords_of (question qa)) [] qa_group in
  match all_keywords with
  | [] => discussion_name index
  | _ =>
      let keyword_counts := Counter all_keywords in
      let topic_scores :=
        foldl (λ scores tw,
                 let score :=
                   sum_list ((λ w, dict_get keyword_counts w 0) <$> tw.2) in
                 if 0 <? score then scores ++ [(tw.1, score)] else scores)
              [] TOPIC_KEYWORDS in
      let top_keywords := fst <$> most_common 5 keyword_counts in
      match max_by_value topic_scores with
      | Some best_topic =>
          let distinctive :=
            find (λ k, bool_decide (k ∉ dict_get TOPIC_KEYWORDS best_topic []))
                 top_keywords in
          match distinctive with
          | Some (c :: k) =>
              str_title best_topic ++ cps ": " ++ str_title (c :: k)
          | _ => str_title best_topic
          end
      | None =>
          match top_keywords with
          | k0 :: k1 :: _ => str_title k0 ++ cps " & " ++ str_title k1
          | [k0] => str_title k0
          | [] => discussion_name index
          end
      end
  end.
End Namer.

(** ** Segments and the merge passes *)

Record Topic : Type := {
  topic_name : pystr;
  qa_pairs : list Turn
}.

Global Instance Topic_inhabited : Inhabited Topic :=
  populate {| topic_name := []; qa_pairs := [] |}.

(** [l[a:b]] and [l[a:]] *)
Definition slice {A} (l : list A) (a b : nat) : list A := take (b - a) (drop a l).
Definition slice_from {A} (l : list A) (a : nat) : list A := drop a l.

(** An unbounded minimum: [None] is [float('inf')]. *)
Definition below_min (size : nat) (min_size : option nat) : bool :=
  match min_size with
  | None => true
  | Some m => size <? m
  end.

Section Grouper.
Context `{U : Unicode}.

Definition make_topic (group : list Turn) (index : nat) : Topic :=
  {| topic_name := generate_topic_name group index; qa_pairs := group |}.

(** The union of the keyword sets of a segment's turns. *)
Definition group_keywords (qas : list Turn) : gset pystr :=
  foldl (λ keywords qa, keywords ∪ get_keyword_set qa) ∅ qas.

Definition group_similarity (a b : Topic) : Q :=
  calculate_similarity (group_keywords (qa_pairs a))
                       (group_keywords (qa_pairs b)).

(** The [while i < len(topics)] loop of [merge_small_topics]; [topics] is
    what remains from index [i] on. *)
Fixpoint merge_small_loop (merged topics : list Topic) : list Topic :=
  match topics with
  | [] => merged
  | current :: rest =>
      let keep := merge_small_loop (merged ++ [current]) rest in
      let try_next :=
        match rest with
        | next_topic :: rest' =>
            if Qltb (2 # 100) (group_similarity current next_topic) then
              let both := qa_pairs current ++ qa_pairs next_topic in
              merge_small_loop
                (merged ++ [make_topic both (length merged)]) rest'
            else keep
        | [] => keep
        end in
      if length (qa_pairs current) <? 3 then
        match last merged with
        | Some prev =>
            if Qltb (2 # 100) (group_similarity current prev)
               || (length (qa_pairs prev) <? 3) then
              let both := qa_pairs prev ++ qa_pairs current in
              merge_small_loop
                (<[length merged - 1 := make_topic both (length merged - 1)]>
                   merged)
                rest
            else try_next
        | None => try_next
        end
      else keep
  end.

Definition merge_small_topics (topics : list Topic) : list Topic :=
  if length topics <=? 1 then topics else merge_small_loop [] topics.

Definition combined_size (topics : list Topic) (i : nat) : nat :=
  length (qa_pairs (topics !!! i)) + length (qa_pairs (topics !!! (i + 1))).

(** The search loop: the state is [(min_size, merge_idx)]. *)
Definition find_merge_idx (topics : list Topic) : nat :=
  snd (foldl (λ st i,
                if below_min (combined_size topics i) st.1
                then (Some (combined_size topics i), i) else st)
             (None, 0) (range 0 (length topics - 1))).

Definition merge_smallest_adjacent_topics (topics : list Topic)
  : list Topic :=
  if length topics <=? 1 then topics
  else
    let merge_idx := find_merge_idx topics in
    foldl (λ merged i,
             if i =? merge_idx then
               let combined :=
                 qa_pairs (topics !!! i) ++ qa_pairs (topics !!! (i + 1)) in
               merged ++ [make_topic combined (length merged)]
             else if i =? merge_idx + 1 then merged
             else merged ++ [topics !!! i])
          [] (range 0 (length topics)).

(** The guard of the global reduction loop. *)
Definition too_many (n : nat) (merged_topics : list Topic) : bool :=
  (1 <? length merged_topics)
  && Qltb (pydiv n (length merged_topics)) 5.

(** The global reduction loop, running for at most [fuel] iterations.
    Every iteration removes one segment, so as many iterations as there are
    segments let the loop leave through its guard ([reduce_loop_exit],
    [reduce_loop_fuel]). *)
Fixpoint reduce_loop (fuel n : nat) (merged_topics : list Topic)
  : list Topic :=
  match fuel with
  | 0 => merged_topics
  | S fuel' =>
      if too_many n merged_topics then
        reduce_loop fuel' n (merge_smallest_adjacent_topics merged_topics)
      else merged_topics
  end.

(** The slicing loop: the state is [(topics, prev_idx)]. *)
Definition slice_body (qa_pairs : list Turn) (st : list Topic * nat)
    (shift_idx : nat) : list Topic * nat :=
  let '(topics, prev_idx) := st in
  if prev_idx <? shift_idx then
    let group := slice qa_pairs prev_idx shift_idx in
    (topics ++ [make_topic group (length topics)], shift_idx)
  else (topics, prev_idx).

Definition raw_topics (qa_pairs : list Turn) (shifts : list nat)
  : list Topic :=
  let '(topics, prev_idx) := foldl (slice_body qa_pairs) ([], 0) shifts in
  if prev_idx <? length qa_pairs then
    let group := slice_from qa_pairs prev_idx in
    topics ++ [make_topic group (length topics)]
  else topics.

Definition group_qa_into_topics (qa_pairs : list Turn) : list Topic :=
  match qa_pairs with
  | [] => []
  | _ =>
      if length qa_pairs <=? 5 then [make_topic qa_pairs 0]
      else
        let shifts := detect_topic_shifts qa_pairs DEFAULT_THRESHOLD in
        match shifts with
        | [] => [make_topic qa_pairs 0]
        | _ =>
            let topics := raw_topics qa_pairs shifts in
            let merged_topics := merge_small_topics topics in
            reduce_loop (length merged_topics) (length qa_pairs) merged_topics
        end
  end.
End Grouper.

(** ** Auxiliary notions used by the statements *)

(** The decision the main loop of the detector takes at position [i]. *)
Definition is_shift (keyword_sets : list (gset pystr))
    (threshold : Q) (n i : nat) : bool :=
  Qltb (best_similarity keyword_sets i) threshold
  && negb (next_reconnects keyword_sets threshold n i).

(** The union of the keyword sets of the turns in the window [[lo, hi]],
    both ends included. *)
Definition window_union (keyword_sets : list (gset pystr)) (lo hi : nat)
  : gset pystr :=
  ⋃ slice keyword_sets lo (hi + 1).

(** The turns of a segment list, in order. *)
Definition all_turns (topics : list Topic) : list Turn :=
  concat (qa_pairs <$> topics).

(** A segment that holds at least one turn. *)
Definition nonempty_topic (t : Topic) : Prop := qa_pairs t ≠ [].

(** [ceil(n / 5)] *)
Definition ceil_div5 (n : nat) : nat := (n + 4) / 5.

(** ** Sample conversations *)

Definition turn (q a : string) : Turn :=
  {| question := Some (cps q); answer := Some (cps a); timestamp := None |}.

(** Seven turns without a single keyword in common. *)
Definition unrelated_turns : list Turn := [
  turn "alpha" ""; turn "beta" ""; turn "gamma" ""; turn "delta" "";
  turn "epsilon" ""; turn "zeta" ""; turn "theta" ""
]%string.

(** Five turns on databases followed by five on travel. *)
Definition two_topics : list Turn :=
  replicate 5 (turn "database schema" "sql")
  ++ replicate 5 (turn "travel flight booking" "hotel").

(** What is shown of a segment: its name and its number of turns. *)
Definition summary (t : Topic) : string * nat :=
  (string_of_list_ascii
     ((λ c, ascii_of_nat (N.to_nat c)) <$> topic_name t),
   length (qa_pairs t)).

(** The topic of turn 0 comes back at turn 6, after five turns on another
    topic. *)
Definition returning_topic : list Turn := [
  turn "alpha" ""; turn "beta" ""; turn "beta" ""; turn "beta" "";
  turn "beta" ""; turn "beta" ""; turn "alpha" ""
]%string.

(** ** The stage over a whole archive: [process_conversations]

    The archive is a tree of dictionaries.  Each record lists the keys the
    function reads or writes; [None] is a key that is absent, and the
    entries the function never touches are carried along in a field of an
    arbitrary type [R].  Dictionaries that are iterated keep their
    insertion order. *)

Record Conversation (R : Type) : Type := {
  conv_qa_pairs : option (list Turn);
  conv_topics : option (list Topic);
  conv_rest : R
}.
Arguments conv_qa_pairs {R}.
Arguments conv_topics {R}.
Arguments conv_rest {R}.

Record BroadCategory (R : Type) : Type := {
  sub_categories : option (list (pystr * list (Conversation R)));
  broad_rest : R
}.
Arguments sub_categories {R}.
Arguments broad_rest {R}.

Record Summary (R : Type) : Type := {
  total_topics : option nat;
  conversations_with_multiple_topics : option nat;
  summary_rest : R
}.
Arguments total_topics {R}.
Arguments conversations_with_multiple_topics {R}.
Arguments summary_rest {R}.

Record Data (R : Type) : Type := {
  hierarchy : option (list (pystr * BroadCategory R));
  data_summary : option (Summary R);
  data_rest : R
}.
Arguments hierarchy {R}.
Arguments data_summary {R}.
Arguments data_rest {R}.

(** A call returns or raises [KeyError] on the named key. *)
Inductive Outcome (A : Type) : Type :=
  | Returned (a : A)
  | KeyError (key : string).
Arguments Returned {A}.
Arguments KeyError {A}.

(** The two counters of [process_conversations]:
    [(total_topics, conversations_with_multiple_topics)]. *)
Definition Counters : Type := nat * nat.

Section Archive.
Context `{U : Unicode} {R : Type}.

(** The body of the innermost loop. *)
Definition process_conv (conv : Conversation R) (st : Counters)
  : Conversation R * Counters :=
  let qa_pairs := default [] (conv_qa_pairs conv) in
  let topics := group_qa_into_topics qa_pairs in
  let conv' := {| conv_qa_pairs := conv_qa_pairs conv;
                  conv_topics := Some topics;
                  conv_rest := conv_rest conv |} in
  let total_topics := st.1 + length topics in
  let multiple :=
    if 1 <? length topics then st.2 + 1 else st.2 in
  (conv', (total_topics, multiple)).

(** [for conv in conversations] *)
Fixpoint process_convs (conversations : list (Conversation R)) (st : Counters)
  : list (Conversation R) * Counters :=
  match conversations with
  | [] => ([], st)
  | conv :: rest =>
      let '(conv', st1) := process_conv conv st in
      let '(rest', st2) := process_convs rest st1 in
      (conv' :: rest', st2)
  end.

(** [for sub_cat, conversations in broad_data["sub_categories"].items()] *)
Fixpoint process_subs (subs : list (pystr * list (Conversation R)))
    (st : Counters) : list (pystr * list (Conversation R)) * Counters :=
  match subs with
  | [] => ([], st)
  | (sub_cat, conversations) :: rest =>
      let '(conversations', st1) := process_convs conversations st in
      let '(rest', st2) := process_subs rest st1 in
      ((sub_cat, conversations') :: rest', st2)
  end.

(** [for broad_cat, broad_data in hierarchy.items()]; the subscript
    [broad_data["sub_categories"]] raises on a missing key. *)
Fixpoint process_broads (broads : list (pystr * BroadCategory R))
    (st : Counters) : Outcome (list (pystr * BroadCategory R) * Counters) :=
  match broads with
  | [] => Returned ([], st)
  | (broad_cat, broad_data) :: rest =>
      match sub_categories broad_data with
      | None => KeyError "sub_categories"
      | Some subs =>
          let '(subs', st1) := process_subs subs st in
          match process_broads rest st1 with
          | KeyError key => KeyError key
          | Returned (rest', st2) =>
              Returned
                ((broad_cat, {| sub_categories := Some subs';
                                broad_rest := broad_rest broad_data |})
                   :: rest', st2)
          end
      end
  end.

(** [data.get("hierarchy", {})] is walked, then the two totals are stored
    under [data["summary"]], which raises if the archive has no summary.
    An exception leaves the caller without a result; the conversations
    already visited keep the topics written into them, which the model does
    not show. *)
Definition process_conversations (data : Data R) : Outcome (Data R) :=
  let walked :=
    match hierarchy data with
    | Some broads =>
        match process_broads broads (0, 0) with
        | KeyError key => KeyError key
        | Returned (broads', st) => Returned (Some broads', st)
        end
    | None => Returned (None, (0, 0))
    end in
  match walked with
  | KeyError key => KeyError key
  | Returned (hierarchy', (total, multiple)) =>
      match data_summary data with
      | None => KeyError "summary"
      | Some s =>
          Returned
            {| hierarchy := hierarchy';
               data_summary :=
                 Some {| total_topics := Some total;
                         conversations_with_multiple_topics := Some multiple;
                         summary_rest := summary_rest s |};
               data_rest := data_rest data |}
      end
  end.
End Archive.

(** ** Auxiliary notions of the further properties *)

(** The strings of [tokens] occur in [s] one after the other, without
    overlap. *)
Fixpoint substrings_in_order (tokens : list pystr) (s : pystr) : Prop :=
  match tokens with
  | [] => True
  | t :: tokens' =>
      ∃ before after,
        s = before ++ t ++ after ∧ substrings_in_order tokens' after
  end.

(** No two neighbours of a list of segment sizes are both below 3. *)
Fixpoint no_two_small (sizes : list nat) : Prop :=
  match sizes with
  | a :: (b :: _) as rest => (3 ≤ a ∨ 3 ≤ b) ∧ no_two_small rest
  | _ => True
  end.

Definition topic_sizes (topics : list Topic) : list nat :=
  (λ t, length (qa_pairs t)) <$> topics.

(** The name of a segment is what the namer makes of the segment's own
    turns, at some ordinal. *)
Definition named_from_own_turns `{U : Unicode} (t : Topic) : Prop :=
  ∃ index, topic_name t = generate_topic_name (qa_pairs t) index.

(** The conversations of an archive and what the stage adds to them. *)
Section ArchiveNotions.
Context `{U : Unicode} {R : Type}.

Definition turn_count (conv : Conversation R) : nat :=
  length (default [] (conv_qa_pairs conv)).

Definition topic_count (conv : Conversation R) : nat :=
  length (default [] (conv_topics conv)).

(** The conversation with its segmentation stored under ["topics"]. *)
Definition with_topics (conv : Conversation R) : Conversation R :=
  {| conv_qa_pairs := conv_qa_pairs conv;
     conv_topics :=
       Some (group_qa_into_topics (default [] (conv_qa_pairs conv)));
     conv_rest := conv_rest conv |}.

Definition with_topics_sub (entry : pystr * list (Conversation R))
  : pystr * list (Conversation R) :=
  (entry.1, with_topics <$> entry.2).

Definition with_topics_broad (broad_data : BroadCategory R) : BroadCategory R :=
  {| sub_categories :=
       match sub_categories broad_data with
       | Some subs => Some (with_topics_sub <$> subs)
       | None => None
       end;
     broad_rest := broad_rest broad_data |}.

Definition with_topics_entry (entry : pystr * BroadCategory R)
  : pystr * BroadCategory R :=
  (entry.1, with_topics_broad entry.2).

Definition with_topics_hierarchy
    (hierarchy : option (list (pystr * BroadCategory R)))
  : option (list (pystr * BroadCategory R)) :=
  match hierarchy with
  | Some broads => Some (with_topics_entry <$> broads)
  | None => None
  end.

Definition broad_conversations (broad_data : BroadCategory R)
  : list (Conversation R) :=
  concat (snd <$> default [] (sub_categories broad_data)).

Definition hierarchy_conversations (broads : list (pystr * BroadCategory R))
  : list (Conversation R) :=
  concat ((λ kb, broad_conversations kb.2) <$> broads).

(** All conversations of the archive, in the order the stage visits them. *)
Definition conversations_of (data : Data R) : list (Conversation R) :=
  hierarchy_conversations (default [] (hierarchy data)).

(** The two totals of a list of conversations. *)
Definition count_topics (conversations : list (Conversation R)) : Counters :=
  (sum_list (topic_count <$> conversations),
   length (filter (λ conv, 1 < topic_count conv) conversations)).

(** Every broad category has its ["sub_categories"]. *)
Definition well_keyed (broads : list (pystr * BroadCategory R)) : Prop :=
  Forall (λ kb, sub_categories kb.2 ≠ None) broads.
End ArchiveNotions.

(** ** Sample inputs of the further properties *)

(** Six turns on one topic. *)
Definition one_topic : list Turn :=
  replicate 6 (turn "database schema" "sql").


(** An archive of one broad category with one sub-category of two
    conversations, and a summary that has no totals yet. *)
Definition sample_archive : Data unit :=
  let conversation (turns : list Turn) : Conversation unit :=
    {| conv_qa_pairs := Some turns; conv_topics := None; conv_rest := () |} in
  {| hierarchy :=
       Some [(cps "Technology",
              {| sub_categories :=
                   Some [(cps "Databases",
                          [conversation unrelated_turns;
                           conversation two_topics])];
                 broad_rest := () |})];
     data_summary :=
       Some {| total_topics := None;
               conversations_with_multiple_topics := None;
               summary_rest := () |};
     data_rest := () |}.

(** What the stage makes of the sample archive. *)
Definition sample_archive_processed : Data unit :=
  match process_conversations (U := ascii_unicode) sample_archive with
  | Returned data' => data'
  | KeyError _ => sample_archive
  end.

(** * Properties *)

(** ** Arithmetic of scores *)

Lemma Zpos_of_nat (n : nat) : 0 < n → Z.pos (Pos.of_nat n) = Z.of_nat n.
Proof.
  intros Hn. rewrite <- (positive_nat_Z (Pos.of_nat n)).
  by rewrite Nat2Pos.id by lia.
Qed.

Lemma pydiv_nonneg (a b : nat) : (0 <= pydiv a b)%Q.
Proof. unfold pydiv, Qle; simpl. lia. Qed.

Lemma pydiv_le_1 (a b : nat) : a ≤ b → 0 < b → (pydiv a b <= 1)%Q.
Proof.
  intros Hab Hb. unfold pydiv, Qle; simpl. rewrite Zpos_of_nat by done. lia.
Qed.

Lemma pydiv_same (a : nat) : 0 < a → (pydiv a a == 1)%Q.
Proof.
  intros Ha. unfold pydiv, Qeq; simpl. rewrite Zpos_of_nat by done. lia.
Qed.

Lemma Qltb_lt (x y : Q) : Qltb x y = true ↔ (x < y)%Q.
Proof.
  unfold Qltb. rewrite negb_true_iff, <- not_true_iff_false, Qle_bool_iff.
  split; [apply Qnot_le_lt | apply Qlt_not_le].
Qed.

Lemma Qltb_ge (x y : Q) : Qltb x y = false ↔ (y <= x)%Q.
Proof. unfold Qltb. by rewrite negb_false_iff, Qle_bool_iff. Qed.

Lemma pydiv_lt_5 (n k : nat) : 0 < k → Qltb (pydiv n k) 5 = true ↔ n < 5 * k.
Proof.
  intros Hk. rewrite Qltb_lt. unfold pydiv, Qlt; simpl.
  rewrite Zpos_of_nat by done. lia.
Qed.

(** ** Similarity *)

Lemma calculate_similarity_comm (A B : gset pystr) :
  calculate_similarity A B = calculate_similarity B A.
Proof.
  unfold calculate_similarity.
  by rewrite orb_comm, (comm_L (∪) A B), (comm_L (∩) A B).
Qed.

Lemma calculate_similarity_empty_l (B : gset pystr) :
  calculate_similarity ∅ B = 0%Q.
Proof. unfold calculate_similarity. by rewrite bool_decide_eq_true_2. Qed.

Lemma calculate_similarity_empty_r (A : gset pystr) :
  calculate_similarity A ∅ = 0%Q.
Proof. by rewrite calculate_similarity_comm, calculate_similarity_empty_l. Qed.

Lemma calculate_similarity_bounds (A B : gset pystr) :
  (0 <= calculate_similarity A B <= 1)%Q.
Proof.
  unfold calculate_similarity.
  destruct (_ || _); [done |].
  destruct (Nat.ltb_spec 0 (size (A ∪ B))) as [Hu | Hu]; [| done].
  split; [apply pydiv_nonneg |].
  apply pydiv_le_1; [| done]. apply subseteq_size.
  etrans; [apply intersection_subseteq_l | apply union_subseteq_l].
Qed.

Lemma calculate_similarity_refl (A : gset pystr) :
  A ≠ ∅ → (calculate_similarity A A == 1)%Q.
Proof.
  intros HA. unfold calculate_similarity.
  rewrite bool_decide_eq_false_2 by done. simpl.
  rewrite (idemp_L (∪) A), (idemp_L (∩) A).
  assert (0 < size A).
  { destruct (size A) eqn:Hs; [| lia]. by apply size_empty_inv, leibniz_equiv in Hs. }
  destruct (Nat.ltb_spec 0 (size A)); [| lia]. by apply pydiv_same.
Qed.

(** C8: the similarity score is symmetric, lies between 0 and 1, is 1 for
    a non-empty set against itself, and is 0 as soon as one of the two sets
    is empty. *)
Theorem calculate_similarity_algebra (A B : gset pystr) :
  calculate_similarity A B = calculate_similarity B A
  ∧ (0 <= calculate_similarity A B <= 1)%Q
  ∧ (A ≠ ∅ → (calculate_similarity A A == 1)%Q)
  ∧ (A = ∅ ∨ B = ∅ → calculate_similarity A B = 0%Q).
Proof.
  split_and!.
  - apply calculate_similarity_comm.
  - apply calculate_similarity_bounds.
  - apply calculate_similarity_bounds.
  - apply calculate_similarity_refl.
  - intros [-> | ->];
      [apply calculate_similarity_empty_l | apply calculate_similarity_empty_r].
Qed.

(** ** Tokens *)

Section TokenFacts.
Context `{U : Unicode}.

Lemma class_run_take (s : pystr) (k : nat) :
  k ≤ class_run s → Forall (λ c, in_class c = true) (take k s).
Proof.
  revert k. induction s as [| c s IH]; intros [| k] Hk; simpl in *;
    try by constructor.
  destruct (in_class c) eqn:Hc; [| lia].
  constructor; [done |]. apply IH. lia.
Qed.

Lemma backtrack_range (k : nat) (s : pystr) (j : nat) :
  backtrack k s = Some j → 1 ≤ j ≤ k.
Proof.
  induction k as [| k IH]; simpl; [done |].
  destruct (boundary _ _); [intros [= <-]; lia |].
  intros Hj. apply IH in Hj. lia.
Qed.

Lemma match_here_range (prev : option N) (s : pystr) (j : nat) :
  match_here prev s = Some j → 1 ≤ j ≤ class_run s.
Proof.
  unfold match_here. destruct (boundary _ _); [| done]. apply backtrack_range.
Qed.

(** Every token the scan returns is a non-empty run of pattern
    characters. *)
Lemma scan_tokens (prev : option N) (skip : nat) (s : pystr) (w : pystr) :
  w ∈ scan prev skip s → w ≠ [] ∧ Forall (λ c, in_class c = true) w.
Proof.
  revert prev skip. induction s as [| c s IH]; intros prev skip; simpl.
  - by intros ?%elem_of_nil.
  - destruct skip as [| k]; [| by apply IH].
    destruct (match_here prev (c :: s)) as [j |] eqn:Hm; [| by apply IH].
    apply match_here_range in Hm.
    intros [-> | Hw]%elem_of_cons; [| by eapply IH].
    split; [| apply class_run_take, Hm].
    destruct j; [lia | done].
Qed.


Lemma extract_keywords_empty (min_length : nat) :
  extract_keywords [] min_length = [].
Proof. done. Qed.

Lemma keywords_of_missing : keywords_of None = [].
Proof. done. Qed.

Lemma keywords_of_empty : keywords_of (Some []) = [].
Proof. done. Qed.




(** C9: keyword extraction is a total function that yields the empty
    list on empty text and on a missing question or answer field; a turn
    part without text contributes nothing to the keyword set, and a turn
    without any text has the empty keyword set, whose similarity to every
    set is 0. *)
Theorem extract_keywords_no_text :
  (∀ text min_length, ∃ keywords, extract_keywords text min_length = keywords)
  ∧ (∀ min_length, extract_keywords [] min_length = [])
  ∧ keywords_of None = [] ∧ keywords_of (Some []) = []
  ∧ (∀ qa, question qa = None ∨ question qa = Some [] →
       get_keyword_set qa = list_to_set (take 50 (keywords_of (answer qa))))
  ∧ (∀ qa, answer qa = None ∨ answer qa = Some [] →
       get_keyword_set qa = list_to_set (keywords_of (question qa)))
  ∧ (∀ qa, (question qa = None ∨ question qa = Some []) →
           (answer qa = None ∨ answer qa = Some []) →
       get_keyword_set qa = ∅
       ∧ ∀ other, calculate_similarity (get_keyword_set qa) other = 0%Q
                  ∧ calculate_similarity other (get_keyword_set qa) = 0%Q).
Proof.
  split_and!; try done.
  - intros text min_length. by eexists.
  - intros qa [Hq | Hq]; unfold get_keyword_set; by rewrite Hq.
  - intros qa [Ha | Ha]; unfold get_keyword_set; rewrite Ha; simpl;
      by rewrite app_nil_r.
  - intros qa Hq Ha.
    assert (get_keyword_set qa = ∅) as ->.
    { unfold get_keyword_set.
      destruct Hq as [-> | ->], Ha as [-> | ->]; done. }
    split; [done |]. intros other.
    by rewrite calculate_similarity_empty_l, calculate_similarity_empty_r.
Qed.
End TokenFacts.

(** ** Change-point detector *)

Lemma StronglySorted_seq (a n : nat) : StronglySorted lt (seq a n).
Proof.
  revert a. induction n as [| n IH]; intros a; simpl; constructor; [done |].
  apply Forall_forall. intros k Hk%elem_of_seq. lia.
Qed.

Lemma StronglySorted_filter {A} (R : A → A → Prop) (P : A → Prop)
    `{∀ x, Decision (P x)} (l : list A) :
  StronglySorted R l → StronglySorted R (filter P l).
Proof.
  induction 1 as [| x l Hl IH Hx]; [constructor |].
  rewrite filter_cons. destruct (decide (P x)); [| done].
  constructor; [done |].
  apply Forall_forall. intros y [_ Hy]%list_elem_of_filter.
  revert y Hy. by apply Forall_forall.
Qed.

Section DetectorFacts.
Context `{U : Unicode}.

Lemma shift_body_filter (kws : list (gset pystr)) (threshold : Q) (n : nat)
    (l : list nat) (shifts : list nat) :
  foldl (shift_body kws threshold n) shifts l
  = shifts ++ filter (λ i, is_shift kws threshold n i = true) l.
Proof.
  revert shifts. induction l as [| i l IH]; intros shifts; simpl.
  - by rewrite app_nil_r.
  - rewrite IH, filter_cons. unfold shift_body, is_shift.
    destruct (Qltb _ _), (next_reconnects _ _ _ _); simpl;
      by rewrite <- ?app_assoc.
Qed.

Lemma detect_topic_shifts_filter (qa_pairs : list Turn) (threshold : Q) :
  detect_topic_shifts qa_pairs threshold
  = if length qa_pairs <=? 3 then []
    else filter (λ i, is_shift (get_keyword_set <$> qa_pairs) threshold
                               (length qa_pairs) i = true)
                (range 1 (length qa_pairs)).
Proof.
  unfold detect_topic_shifts. destruct (_ <=? _); [done |].
  by rewrite shift_body_filter.
Qed.

Lemma elem_of_detect_topic_shifts (qa_pairs : list Turn) (threshold : Q)
    (i : nat) :
  i ∈ detect_topic_shifts qa_pairs threshold ↔
  3 < length qa_pairs ∧ 1 ≤ i < length qa_pairs
  ∧ is_shift (get_keyword_set <$> qa_pairs) threshold (length qa_pairs) i
    = true.
Proof.
  rewrite detect_topic_shifts_filter.
  destruct (Nat.leb_spec (length qa_pairs) 3) as [Hn | Hn].
  - split; [by intros ?%elem_of_nil | lia].
  - unfold range. rewrite list_elem_of_filter, elem_of_seq.
    split; [intros [? ?] | intros (? & ? & ?)]; split_and!; try done; lia.
Qed.

(** C4: the detector returns a strictly increasing list of indices, hence
    one without duplicates, that never holds index 0, and the empty list
    for a sequence of at most 3 turns. *)
Theorem detect_topic_shifts_shape (qa_pairs : list Turn) (threshold : Q) :
  StronglySorted lt (detect_topic_shifts qa_pairs threshold)
  ∧ NoDup (detect_topic_shifts qa_pairs threshold)
  ∧ (0 ∉ detect_topic_shifts qa_pairs threshold)
  ∧ (length qa_pairs ≤ 3 → detect_topic_shifts qa_pairs threshold = []).
Proof.
  split_and!.
  - rewrite detect_topic_shifts_filter. destruct (_ <=? _); [constructor |].
    apply StronglySorted_filter, StronglySorted_seq.
  - rewrite detect_topic_shifts_filter. destruct (_ <=? _); [constructor |].
    apply NoDup_filter, NoDup_seq.
  - rewrite elem_of_detect_topic_shifts. lia.
  - intros Hn. unfold detect_topic_shifts.
    by destruct (Nat.leb_spec (length qa_pairs) 3); [| lia].
Qed.

Lemma next_reconnects_true (kws : list (gset pystr)) (threshold : Q)
    (n i : nat) :
  next_reconnects kws threshold n i = true ↔
  i + 1 < n
  ∧ (2 * threshold
     < calculate_similarity (kws !!! (i + 1)%nat) (kws !!! (i - 1)%nat))%Q.
Proof.
  unfold next_reconnects.
  destruct (Nat.ltb_spec (i + 1) n) as [Hlt | Hge].
  - rewrite Qltb_lt, (calculate_similarity_comm (kws !!! (i + 1))),
      (Qmult_comm 2 threshold).
    split; [by intros ? | by intros [_ ?]].
  - split; [done | lia].
Qed.

End DetectorFacts.

(** ** The rolling context *)

Lemma foldl_union_seq (kws : list (gset pystr)) (a m : nat)
    (acc : gset pystr) :
  a + m ≤ length kws →
  foldl (λ context j, context ∪ kws !!! j) acc (seq a m)
  = acc ∪ ⋃ take m (drop a kws).
Proof.
  revert a acc. induction m as [| m IH]; intros a acc Hlen.
  - by rewrite take_0, union_list_nil, (right_id_L ∅ (∪)).
  - simpl. destruct (lookup_lt_is_Some_2 kws a) as [x Hx]; [lia |].
    rewrite IH by lia. rewrite (list_lookup_total_correct _ _ _ Hx).
    rewrite (drop_S _ _ _ Hx). simpl.
    by rewrite (assoc_L (∪)).
Qed.

Lemma context_at_window (kws : list (gset pystr)) (k : nat) :
  k < length kws → context_at kws k = window_union kws (max 0 (k - 5)) k.
Proof.
  intros Hk. unfold context_at, window_union, range, slice.
  rewrite foldl_union_seq by lia. by rewrite (left_id_L ∅ (∪)).
Qed.

Lemma cumulative_contexts_lookup (kws : list (gset pystr)) (k : nat) :
  k < length kws → cumulative_contexts kws !!! k = context_at kws k.
Proof.
  intros Hk. apply list_lookup_total_correct.
  unfold cumulative_contexts, range.
  rewrite list_lookup_fmap, lookup_seq_lt by lia. done.
Qed.

(** C6, as the code has it: at every position [i ≥ 1] the context signal
    is the similarity between the keyword set of turn [i] and the union of
    the keyword sets of the turns in the window [[max(0, i-6), i-1]]. *)
Theorem sim_context_window `{U : Unicode} (qa_pairs : list Turn) (i : nat) :
  let kws : list (gset pystr) := get_keyword_set <$> qa_pairs in
  1 ≤ i < length qa_pairs →
  sim_context kws i
  = calculate_similarity (kws !!! i) (window_union kws (max 0 (i - 6)) (i - 1)).
Proof.
  intros kws Hi. unfold sim_context.
  assert (length kws = length qa_pairs) as Hlen by apply length_fmap.
  rewrite cumulative_contexts_lookup, context_at_window by lia.
  rewrite calculate_similarity_comm. do 2 f_equal. lia.
Qed.

(** C6, as the specification words it, fails: with the window
    [[max(0, i-5), i-1]] the turn six places back would not count, but at
    position 6 of [returning_topic] it is turn 0 that gives the context its
    only shared keyword. *)
Lemma context_window_of_five_refuted :
  ¬ (∀ (U : Unicode) (qa_pairs : list Turn) (i : nat),
       let kws : list (gset pystr) := get_keyword_set <$> qa_pairs in
       1 ≤ i < length qa_pairs →
       (sim_context kws i
        == calculate_similarity (kws !!! i)
             (window_union kws (max 0 (i - 5)) (i - 1)))%Q).
Proof.
  intros H.
  pose proof (H ascii_unicode returning_topic 6 ltac:(simpl; lia)) as H6.
  vm_compute in H6. discriminate H6.
Qed.

(** ** Segment lists *)

Lemma all_turns_app (a b : list Topic) :
  all_turns (a ++ b) = all_turns a ++ all_turns b.
Proof. unfold all_turns. by rewrite fmap_app, concat_app. Qed.

Lemma all_turns_singleton (t : Topic) : all_turns [t] = qa_pairs t.
Proof. unfold all_turns. simpl. by rewrite app_nil_r. Qed.

Lemma all_turns_cons (t : Topic) (ts : list Topic) :
  all_turns (t :: ts) = qa_pairs t ++ all_turns ts.
Proof. done. Qed.

(** Overwriting the last element of a non-empty list. *)
Lemma insert_last {A} (l : list A) (x y : A) :
  last l = Some x →
  ∃ init, l = init ++ [x] ∧ <[length l - 1 := y]> l = init ++ [y].
Proof.
  intros [init ->]%last_Some. exists init. split; [done |].
  rewrite length_app. simpl.
  replace (length init + 1 - 1) with (length init + 0) by lia.
  by rewrite insert_app_r.
Qed.

Section SlicingFacts.
Context `{U : Unicode}.

Lemma slice_loop_turns (l : list Turn) (shifts : list nat)
    (topics : list Topic) (prev_idx : nat) :
  all_turns topics = take prev_idx l →
  let st := foldl (slice_body l) (topics, prev_idx) shifts in
  all_turns st.1 = take st.2 l.
Proof.
  revert topics prev_idx.
  induction shifts as [| shift_idx shifts IH]; intros topics prev_idx Hinv;
    simpl; [done |].
  destruct (Nat.ltb_spec prev_idx shift_idx) as [Hlt | Hge];
    [| by apply IH].
  apply IH. rewrite all_turns_app, all_turns_singleton, Hinv. simpl.
  unfold slice. rewrite take_take_drop. f_equal. lia.
Qed.

Lemma raw_topics_turns (l : list Turn) (shifts : list nat) :
  all_turns (raw_topics l shifts) = l.
Proof.
  unfold raw_topics.
  pose proof (slice_loop_turns l shifts [] 0 eq_refl) as Hinv.
  simpl in Hinv.
  destruct (foldl (slice_body l) ([], 0) shifts) as [topics prev_idx].
  simpl in Hinv.
  destruct (Nat.ltb_spec prev_idx (length l)) as [Hlt | Hge].
  - rewrite all_turns_app, all_turns_singleton, Hinv. simpl.
    apply take_drop.
  - rewrite Hinv. by apply take_ge.
Qed.

Lemma slice_loop_nonempty (l : list Turn) (shifts : list nat)
    (topics : list Topic) (prev_idx : nat) :
  Forall (λ i, i < length l) shifts →
  Forall nonempty_topic topics → prev_idx < length l →
  let st := foldl (slice_body l) (topics, prev_idx) shifts in
  Forall nonempty_topic st.1 ∧ st.2 < length l.
Proof.
  revert topics prev_idx.
  induction shifts as [| shift_idx shifts IH];
    intros topics prev_idx Hshifts Hne Hprev; simpl; [done |].
  apply Forall_cons in Hshifts as [Hshift Hshifts].
  destruct (Nat.ltb_spec prev_idx shift_idx) as [Hlt | Hge];
    [| by apply IH].
  apply IH; [done | | done].
  apply Forall_app. split; [done |]. apply Forall_singleton.
  unfold nonempty_topic, slice. simpl.
  intros Hnil%(f_equal length).
  rewrite length_take, length_drop in Hnil. simpl in Hnil. lia.
Qed.

Lemma raw_topics_nonempty (l : list Turn) (shifts : list nat) :
  l ≠ [] → Forall (λ i, i < length l) shifts →
  raw_topics l shifts ≠ [] ∧ Forall nonempty_topic (raw_topics l shifts).
Proof.
  intros Hl Hshifts. unfold raw_topics.
  assert (0 < length l) as Hlen by (destruct l; [done | simpl; lia]).
  pose proof (slice_loop_nonempty l shifts [] 0 Hshifts (Forall_nil_2 _) Hlen)
    as Hinv.
  simpl in Hinv.
  destruct (foldl (slice_body l) ([], 0) shifts) as [topics prev_idx].
  simpl in Hinv. destruct Hinv as [Hne Hprev].
  destruct (Nat.ltb_spec prev_idx (length l)) as [Hlt | Hge]; [| lia].
  split; [by intros [_ ?]%app_eq_nil |].
  apply Forall_app. split; [done |]. apply Forall_singleton.
  unfold nonempty_topic, slice_from. simpl.
  intros Hnil%(f_equal length). rewrite length_drop in Hnil.
  simpl in Hnil. lia.
Qed.
End SlicingFacts.

(** ** Small-segment absorption *)

Section AbsorptionFacts.
Context `{U : Unicode}.

(** An invariant of the scan is a relation between the finalised and the
    remaining segments that each of its three moves keeps. *)
Lemma merge_small_loop_invariant (Inv : list Topic → list Topic → Prop) :
  (∀ merged current rest,
      Inv merged (current :: rest) → Inv (merged ++ [current]) rest) →
  (∀ merged prev current rest,
      Inv merged (current :: rest) → last merged = Some prev →
      Inv (<[length merged - 1 :=
               make_topic (qa_pairs prev ++ qa_pairs current)
                          (length merged - 1)]> merged) rest) →
  (∀ merged current next_topic rest,
      Inv merged (current :: next_topic :: rest) →
      Inv (merged ++ [make_topic (qa_pairs current ++ qa_pairs next_topic)
                                 (length merged)]) rest) →
  ∀ topics merged, Inv merged topics → Inv (merge_small_loop merged topics) [].
Proof.
  intros Hkeep Hprev Hnext topics.
  assert (∀ n topics, length topics ≤ n →
            ∀ merged, Inv merged topics →
                      Inv (merge_small_loop merged topics) []) as Hall.
  { clear topics. induction n as [| n IH]; intros topics Hlen merged Hinv.
    - destruct topics; [done | simpl in Hlen; lia].
    - destruct topics as [| current rest]; [done |].
      simpl in Hlen. simpl.
      assert (Inv (merge_small_loop (merged ++ [current]) rest) []) as Hk.
      { apply IH; [lia | by apply Hkeep]. }
      assert (Inv
        match rest with
        | [] => merge_small_loop (merged ++ [current]) rest
        | next_topic :: rest' =>
            if Qltb (2 # 100) (group_similarity current next_topic)
            then merge_small_loop
                   (merged ++ [make_topic (qa_pairs current
                                           ++ qa_pairs next_topic)
                                          (length merged)]) rest'
            else merge_small_loop (merged ++ [current]) rest
        end []) as Hn.
      { destruct rest as [| next_topic rest']; [done |].
        destruct (Qltb _ _); [| done].
        apply IH; [simpl in Hlen; lia | by apply Hnext]. }
      destruct (length (qa_pairs current) <? 3); [| done].
      destruct (last merged) as [prev |] eqn:Hlast; [| done].
      destruct (_ || _); [| done].
      apply IH; [lia | by apply Hprev]. }
  by apply (Hall (length topics)).
Qed.

Lemma merge_small_topics_turns (topics : list Topic) :
  all_turns (merge_small_topics topics) = all_turns topics.
Proof.
  unfold merge_small_topics. destruct (_ <=? _); [done |].
  pose (Inv := λ merged rest : list Topic,
          all_turns merged ++ all_turns rest = all_turns topics).
  assert (Inv (merge_small_loop [] topics) []) as Hfinal.
  { apply (merge_small_loop_invariant Inv); unfold Inv; [| | | reflexivity].
    - intros merged current rest <-.
      by rewrite all_turns_app, all_turns_singleton, <- app_assoc.
    - intros merged prev current rest <- Hlast.
      destruct (insert_last merged prev
        (make_topic (qa_pairs prev ++ qa_pairs current) (length merged - 1))
        Hlast) as (init & Hm & ->).
      rewrite Hm, !all_turns_app, !all_turns_singleton, all_turns_cons.
      simpl. by rewrite <- !app_assoc.
    - intros merged current next_topic rest <-.
      rewrite all_turns_app, all_turns_singleton, !all_turns_cons. simpl.
      by rewrite <- !app_assoc. }
  unfold Inv in Hfinal. by rewrite app_nil_r in Hfinal.
Qed.

Lemma merge_small_topics_nonempty (topics : list Topic) :
  topics ≠ [] → Forall nonempty_topic topics →
  merge_small_topics topics ≠ []
  ∧ Forall nonempty_topic (merge_small_topics topics).
Proof.
  intros Hne Hall. unfold merge_small_topics. destruct (_ <=? _); [done |].
  pose (Inv := λ merged rest : list Topic,
          Forall nonempty_topic merged ∧ Forall nonempty_topic rest
          ∧ merged ++ rest ≠ []).
  assert (Inv (merge_small_loop [] topics) []) as (? & _ & Hfinal).
  { apply (merge_small_loop_invariant Inv); unfold Inv;
      [| | | by split_and!; [constructor | |]].
    - intros merged current rest (Hm & [Hc Hr]%Forall_cons & _).
      split_and!; [| done |].
      + apply Forall_app. by split; [| apply Forall_singleton].
      + by intros [[_ ?]%app_eq_nil _]%app_eq_nil.
    - intros merged prev current rest (Hm & [Hc Hr]%Forall_cons & _) Hlast.
      destruct (insert_last merged prev
        (make_topic (qa_pairs prev ++ qa_pairs current) (length merged - 1))
        Hlast) as (init & Hmerged & ->).
      rewrite Hmerged in Hm. apply Forall_app in Hm as [Hinit _].
      split_and!; [| done |].
      + apply Forall_app. split; [done |]. apply Forall_singleton.
        unfold nonempty_topic. simpl. by intros [_ ?]%app_eq_nil.
      + by intros [[_ ?]%app_eq_nil _]%app_eq_nil.
    - intros merged current next_topic rest
        (Hm & (Hc & [Hn Hr]%Forall_cons)%Forall_cons & _).
      split_and!; [| done |].
      + apply Forall_app. split; [done |]. apply Forall_singleton.
        unfold nonempty_topic. simpl. by intros [? _]%app_eq_nil.
      + by intros [[_ ?]%app_eq_nil _]%app_eq_nil. }
  by rewrite app_nil_r in Hfinal.
Qed.
End AbsorptionFacts.

(** ** Global reduction *)

Section ReductionFacts.
Context `{U : Unicode}.

(** The state of the search loop after [j] iterations. *)
Lemma find_merge_idx_loop (topics : list Topic) (j : nat) :
  let st := foldl (λ st i,
                     if below_min (combined_size topics i) st.1
                     then (Some (combined_size topics i), i) else st)
                  (None, 0) (seq 0 j) in
  match j with
  | 0 => st = (None, 0)
  | S _ =>
      st.1 = Some (combined_size topics st.2) ∧ st.2 < j
      ∧ (∀ i, i < j → combined_size topics st.2 ≤ combined_size topics i)
      ∧ (∀ i, i < st.2 → combined_size topics st.2 < combined_size topics i)
  end.
Proof.
  induction j as [| j IH]; [done |].
  rewrite seq_S, foldl_app. simpl in *.
  destruct (foldl _ _ (seq 0 j)) as [min_size merge_idx].
  destruct j as [| j'].
  - injection IH as -> ->. simpl. split_and!; [done | lia | | lia].
    intros i Hi. by replace i with 0 by lia.
  - simpl in IH. destruct IH as (-> & Hidx & Hmin & Hfirst). simpl.
    destruct (Nat.ltb_spec (combined_size topics (S j'))
                           (combined_size topics merge_idx)) as [Hlt | Hge];
      simpl; split_and!; try done; try lia.
    + intros i Hi. destruct (decide (i = S j')) as [-> | Hne]; [done |].
      specialize (Hmin i). lia.
    + intros i Hi. specialize (Hmin i). lia.
    + intros i Hi. destruct (decide (i = S j')) as [-> | Hne]; [done |].
      apply Hmin. lia.
Qed.

(** The search returns the earliest adjacent pair of least combined
    size. *)
Lemma find_merge_idx_spec (topics : list Topic) :
  1 < length topics →
  let k := find_merge_idx topics in
  k + 1 < length topics
  ∧ (∀ i, i + 1 < length topics →
          combined_size topics k ≤ combined_size topics i)
  ∧ (∀ i, i < k → combined_size topics k < combined_size topics i).
Proof.
  intros Hlen. unfold find_merge_idx, range.
  pose proof (find_merge_idx_loop topics (length topics - 1 - 0)) as Hloop.
  simpl in Hloop.
  destruct (length topics - 1 - 0) as [| m] eqn:Hm; [lia |].
  destruct Hloop as (_ & Hidx & Hmin & Hfirst).
  split_and!; [lia | | done].
  intros i Hi. apply Hmin. lia.
Qed.

(** The list under construction after [j] iterations of the rebuilding
    loop. *)
Lemma rebuild_loop (topics : list Topic) (k j : nat) :
  k + 1 < length topics → j ≤ length topics →
  foldl (λ merged i,
           if i =? k then
             merged ++ [make_topic (qa_pairs (topics !!! i)
                                    ++ qa_pairs (topics !!! (i + 1)))
                                   (length merged)]
           else if i =? k + 1 then merged
           else merged ++ [topics !!! i])
        [] (seq 0 j)
  = if j <=? k then take j topics
    else take k topics
         ++ [make_topic (qa_pairs (topics !!! k)
                         ++ qa_pairs (topics !!! (k + 1))) k]
         ++ take (j - (k + 2)) (drop (k + 2) topics).
Proof.
  intros Hk. induction j as [| j IH]; intros Hj; [done |].
  rewrite seq_S, foldl_app, IH by lia.
  change (0 + j) with j. cbn [foldl].
  destruct (lookup_lt_is_Some_2 topics j) as [t Ht]; [lia |].
  destruct (Nat.eqb_spec j k) as [-> | Hjk].
  - destruct (Nat.leb_spec k k); [| lia].
    destruct (Nat.leb_spec (S k) k); [lia |].
    rewrite length_take_le by lia.
    replace (S k - (k + 2)) with 0 by lia. by rewrite take_0.
  - destruct (Nat.eqb_spec j (k + 1)) as [-> | Hjk1].
    + destruct (Nat.leb_spec (k + 1) k); [lia |].
      destruct (Nat.leb_spec (S (k + 1)) k); [lia |].
      by replace (S (k + 1) - (k + 2)) with (k + 1 - (k + 2)) by lia.
    + rewrite (list_lookup_total_correct _ _ _ Ht).
      destruct (Nat.leb_spec j k), (Nat.leb_spec (S j) k); try lia.
      * by rewrite (take_S_r _ _ _ Ht).
      * rewrite <- !app_assoc. do 2 f_equal.
        replace (S j - (k + 2)) with (S (j - (k + 2))) by lia.
        symmetry. apply take_S_r. rewrite lookup_drop, <- Ht. f_equal. lia.
Qed.

(** The merge replaces the pair at [find_merge_idx] by a single segment
    and leaves every other segment where it is. *)
Lemma merge_smallest_adjacent_topics_spec (topics : list Topic) :
  1 < length topics →
  let k := find_merge_idx topics in
  merge_smallest_adjacent_topics topics
  = take k topics
    ++ [make_topic (qa_pairs (topics !!! k) ++ qa_pairs (topics !!! (k + 1)))
                   k]
    ++ drop (k + 2) topics.
Proof.
  intros Hlen k. unfold merge_smallest_adjacent_topics.
  destruct (Nat.leb_spec (length topics) 1); [lia |].
  destruct (find_merge_idx_spec topics Hlen) as (Hk & _). fold k in Hk.
  unfold range. fold k. rewrite Nat.sub_0_r, rebuild_loop by lia.
  destruct (Nat.leb_spec (length topics) k); [lia |].
  by rewrite (take_ge (drop _ _)) by (rewrite length_drop; lia).
Qed.

(** The shape of a list around two neighbours. *)
Lemma split_at_pair (topics : list Topic) (k : nat) :
  k + 1 < length topics →
  topics = take k topics ++ topics !!! k :: topics !!! (k + 1)
                         :: drop (k + 2) topics.
Proof.
  intros Hk.
  destruct (lookup_lt_is_Some_2 topics k) as [a Ha]; [lia |].
  destruct (lookup_lt_is_Some_2 topics (k + 1)) as [b Hb]; [lia |].
  rewrite (list_lookup_total_correct _ _ _ Ha).
  rewrite (list_lookup_total_correct _ _ _ Hb).
  rewrite <- (take_drop k topics) at 1. f_equal.
  rewrite (drop_S _ _ _ Ha). f_equal.
  replace (S k) with (k + 1) by lia.
  rewrite (drop_S _ _ _ Hb). f_equal. f_equal. lia.
Qed.

Lemma merge_smallest_adjacent_topics_turns (topics : list Topic) :
  all_turns (merge_smallest_adjacent_topics topics) = all_turns topics.
Proof.
  destruct (Nat.le_gt_cases (length topics) 1) as [Hle | Hgt].
  - unfold merge_smallest_adjacent_topics.
    by destruct (Nat.leb_spec (length topics) 1); [| lia].
  - rewrite merge_smallest_adjacent_topics_spec by done.
    destruct (find_merge_idx_spec topics Hgt) as (Hk & _).
    etrans; [| symmetry; apply (f_equal all_turns (split_at_pair topics _ Hk))].
    rewrite !all_turns_app, all_turns_singleton, !all_turns_cons. simpl.
    by rewrite <- !app_assoc.
Qed.

Lemma merge_smallest_adjacent_topics_length (topics : list Topic) :
  1 < length topics →
  length (merge_smallest_adjacent_topics topics) = length topics - 1.
Proof.
  intros Hgt. rewrite merge_smallest_adjacent_topics_spec by done.
  destruct (find_merge_idx_spec topics Hgt) as (Hk & _).
  rewrite !length_app, length_take, length_drop. simpl. lia.
Qed.

Lemma merge_smallest_adjacent_topics_nonempty (topics : list Topic) :
  topics ≠ [] → Forall nonempty_topic topics →
  merge_smallest_adjacent_topics topics ≠ []
  ∧ Forall nonempty_topic (merge_smallest_adjacent_topics topics).
Proof.
  intros Hne Hall.
  destruct (Nat.le_gt_cases (length topics) 1) as [Hle | Hgt].
  - unfold merge_smallest_adjacent_topics.
    by destruct (Nat.leb_spec (length topics) 1); [| lia].
  - rewrite merge_smallest_adjacent_topics_spec by done.
    destruct (find_merge_idx_spec topics Hgt) as (Hk & _).
    set (k := find_merge_idx topics) in *.
    split; [by intros [_ ?]%app_eq_nil |].
    rewrite (split_at_pair topics k Hk) in Hall.
    apply Forall_app in Hall as (Hinit & (Ha & (Hb & Hrest)%Forall_cons)%Forall_cons).
    apply Forall_app. split; [done |]. apply Forall_cons. split; [| done].
    unfold nonempty_topic. simpl. by intros [? _]%app_eq_nil.
Qed.

Lemma too_many_true (n : nat) (topics : list Topic) :
  too_many n topics = true ↔ 1 < length topics ∧ n < 5 * length topics.
Proof.
  unfold too_many. rewrite andb_true_iff, Nat.ltb_lt.
  split; intros [Hlen Hratio]; (split; [done |]);
    by apply (pydiv_lt_5 n (length topics)); [lia |].
Qed.

Lemma too_many_false (n : nat) (topics : list Topic) :
  too_many n topics = false ↔ length topics ≤ 1 ∨ 5 * length topics ≤ n.
Proof.
  rewrite <- not_true_iff_false, too_many_true. lia.
Qed.

Lemma reduce_loop_turns (fuel n : nat) (topics : list Topic) :
  all_turns (reduce_loop fuel n topics) = all_turns topics.
Proof.
  revert topics. induction fuel as [| fuel IH]; intros topics; simpl;
    [done |].
  destruct (too_many n topics); [| done].
  by rewrite IH, merge_smallest_adjacent_topics_turns.
Qed.

Lemma reduce_loop_nonempty (fuel n : nat) (topics : list Topic) :
  topics ≠ [] → Forall nonempty_topic topics →
  reduce_loop fuel n topics ≠ []
  ∧ Forall nonempty_topic (reduce_loop fuel n topics).
Proof.
  revert topics. induction fuel as [| fuel IH]; intros topics Hne Hall;
    simpl; [done |].
  destruct (too_many n topics); [| done].
  by apply IH; apply merge_smallest_adjacent_topics_nonempty.
Qed.

(** With as much fuel as there are segments the loop leaves through its
    guard. *)
Lemma reduce_loop_exit (fuel n : nat) (topics : list Topic) :
  length topics ≤ fuel → too_many n (reduce_loop fuel n topics) = false.
Proof.
  revert topics. induction fuel as [| fuel IH]; intros topics Hlen; simpl.
  - apply too_many_false. lia.
  - destruct (too_many n topics) eqn:Hguard; [| done].
    apply too_many_true in Hguard as [Hgt _].
    apply IH. rewrite merge_smallest_adjacent_topics_length by done. lia.
Qed.

(** More fuel than segments changes nothing. *)
Lemma reduce_loop_fuel (fuel1 fuel2 n : nat) (topics : list Topic) :
  length topics ≤ fuel1 → length topics ≤ fuel2 →
  reduce_loop fuel1 n topics = reduce_loop fuel2 n topics.
Proof.
  revert fuel2 topics.
  induction fuel1 as [| fuel1 IH]; intros fuel2 topics H1 H2.
  - destruct fuel2 as [| fuel2]; simpl; [done |].
    destruct (too_many n topics) eqn:Hguard; [| done].
    apply too_many_true in Hguard. lia.
  - simpl. destruct (too_many n topics) eqn:Hguard.
    + pose proof Hguard as [Hgt _]%too_many_true.
      destruct fuel2 as [| fuel2]; [lia |]. simpl. rewrite Hguard.
      apply IH; rewrite merge_smallest_adjacent_topics_length by done; lia.
    + destruct fuel2 as [| fuel2]; simpl; [done |]. by rewrite Hguard.
Qed.
End ReductionFacts.

(** ** The orchestrator *)

Section GrouperFacts.
Context `{U : Unicode}.

Lemma detect_topic_shifts_in_range (l : list Turn) (threshold : Q) :
  Forall (λ i, i < length l) (detect_topic_shifts l threshold).
Proof.
  apply Forall_forall. intros i Hi%elem_of_detect_topic_shifts. lia.
Qed.

(** The three ways [group_qa_into_topics] returns. *)
Lemma group_qa_into_topics_cases (l : list Turn) :
  (l = [] ∧ group_qa_into_topics l = [])
  ∨ (l ≠ [] ∧ group_qa_into_topics l = [make_topic l 0])
  ∨ (5 < length l
     ∧ group_qa_into_topics l
       = let merged_topics :=
           merge_small_topics
             (raw_topics l (detect_topic_shifts l DEFAULT_THRESHOLD)) in
         reduce_loop (length merged_topics) (length l) merged_topics).
Proof.
  destruct l as [| qa l]; [by left |]. right.
  unfold group_qa_into_topics.
  destruct (Nat.leb_spec (length (qa :: l)) 5); [by left |].
  destruct (detect_topic_shifts _ _); [by left | by right].
Qed.

(** C1: the segments returned for a conversation, put end to end, are
    the conversation; the absorption pass, one global merge and the whole
    reduction loop each keep the sequence of turns as it is. *)
Theorem partition_invariant :
  (∀ l, all_turns (group_qa_into_topics l) = l)
  ∧ (∀ topics, all_turns (merge_small_topics topics) = all_turns topics)
  ∧ (∀ topics,
       all_turns (merge_smallest_adjacent_topics topics) = all_turns topics)
  ∧ (∀ fuel n topics,
       all_turns (reduce_loop fuel n topics) = all_turns topics).
Proof.
  split_and!.
  - intros l.
    destruct (group_qa_into_topics_cases l)
      as [[-> ->] | [[_ ->] | [_ ->]]]; [done | apply all_turns_singleton |].
    simpl.
    by rewrite reduce_loop_turns, merge_small_topics_turns, raw_topics_turns.
  - apply merge_small_topics_turns.
  - apply merge_smallest_adjacent_topics_turns.
  - apply reduce_loop_turns.
Qed.

(** C3: a conversation of one to five turns comes back as exactly one
    segment, which holds all its turns; the empty conversation comes back
    as the empty list. *)
Theorem short_conversation (l : list Turn) :
  (1 ≤ length l ≤ 5 →
     ∃ t, group_qa_into_topics l = [t] ∧ qa_pairs t = l
          ∧ topic_name t = generate_topic_name l 0)
  ∧ (l = [] → group_qa_into_topics l = []).
Proof.
  split; [| by intros ->].
  intros Hlen. exists (make_topic l 0). split; [| done].
  destruct l as [| qa l]; [simpl in Hlen; lia |].
  unfold group_qa_into_topics.
  by destruct (Nat.leb_spec (length (qa :: l)) 5); [| lia].
Qed.

(** C10: a non-empty conversation yields at least one segment and no
    segment without turns; the absorption pass, one global merge and the
    reduction loop each keep both facts. *)
Theorem segments_nonempty :
  (∀ l, l ≠ [] →
        group_qa_into_topics l ≠ []
        ∧ Forall nonempty_topic (group_qa_into_topics l))
  ∧ (∀ topics, topics ≠ [] → Forall nonempty_topic topics →
        merge_small_topics topics ≠ []
        ∧ Forall nonempty_topic (merge_small_topics topics))
  ∧ (∀ topics, topics ≠ [] → Forall nonempty_topic topics →
        merge_smallest_adjacent_topics topics ≠ []
        ∧ Forall nonempty_topic (merge_smallest_adjacent_topics topics))
  ∧ (∀ fuel n topics, topics ≠ [] → Forall nonempty_topic topics →
        reduce_loop fuel n topics ≠ []
        ∧ Forall nonempty_topic (reduce_loop fuel n topics)).
Proof.
  split_and!.
  - intros l Hl.
    destruct (group_qa_into_topics_cases l)
      as [[-> _] | [[_ ->] | [_ ->]]]; [done | |].
    + split; [done |]. by apply Forall_singleton.
    + simpl. apply reduce_loop_nonempty;
        apply merge_small_topics_nonempty;
        by apply raw_topics_nonempty, detect_topic_shifts_in_range.
  - apply merge_small_topics_nonempty.
  - apply merge_smallest_adjacent_topics_nonempty.
  - apply reduce_loop_nonempty.
Qed.

Lemma ceil_div5_lower (n k : nat) : 5 * k ≤ n → k ≤ ceil_div5 n.
Proof.
  intros Hk. unfold ceil_div5.
  apply Nat.div_le_lower_bound; lia.
Qed.

(** The rounds of the reduction loop: its result is the argument after some
    number of global merges, the guard held before each of them, and it
    fails at the result. *)
Lemma reduce_loop_rounds (fuel n : nat) (topics : list Topic) :
  length topics ≤ fuel →
  ∃ rounds,
    reduce_loop fuel n topics
    = Nat.iter rounds merge_smallest_adjacent_topics topics
    ∧ length (reduce_loop fuel n topics) + rounds = length topics
    ∧ (∀ j, j < rounds →
            too_many n (Nat.iter j merge_smallest_adjacent_topics topics)
            = true)
    ∧ too_many n (reduce_loop fuel n topics) = false.
Proof.
  revert topics. induction fuel as [| fuel IH]; intros topics Hfuel.
  - exists 0. simpl. split_and!; [done | lia | lia |].
    apply too_many_false. lia.
  - simpl. destruct (too_many n topics) eqn:Hguard.
    + pose proof Hguard as [Hgt _]%too_many_true.
      pose proof (merge_smallest_adjacent_topics_length topics Hgt) as Hlen.
      destruct (IH (merge_smallest_adjacent_topics topics))
        as (rounds & Hiter & Hcount & Hbefore & Hexit); [lia |].
      exists (S rounds). split_and!.
      * rewrite Hiter. simpl. by rewrite Nat.iter_swap.
      * lia.
      * intros [| j] Hj; [done |]. simpl. rewrite <- Nat.iter_swap.
        apply Hbefore. lia.
      * done.
    + exists 0. simpl. split_and!; [done | lia | lia | done].
Qed.

Lemma reduce_loop_keeps_one (fuel n : nat) (topics : list Topic) :
  topics ≠ [] → 1 ≤ length (reduce_loop fuel n topics).
Proof.
  revert topics. induction fuel as [| fuel IH]; intros topics Hne; simpl.
  - destruct topics; [done | simpl; lia].
  - destruct (too_many n topics) eqn:Hguard.
    + apply too_many_true in Hguard as [Hgt _]. apply IH.
      intros Hnil%(f_equal length).
      rewrite merge_smallest_adjacent_topics_length in Hnil by done.
      simpl in Hnil. lia.
    + destruct topics; [done | simpl; lia].
Qed.

(** Where the loop stops, one segment remains or the ratio is met. *)
Lemma too_many_false_exit (n : nat) (topics : list Topic) :
  too_many n topics = false → 1 ≤ length topics →
  length topics = 1 ∨ (5 <= pydiv n (length topics))%Q.
Proof.
  unfold too_many. intros Hguard Hone.
  apply andb_false_iff in Hguard as [Hlen%Nat.ltb_ge | Hratio%Qltb_ge];
    [left; lia | by right].
Qed.

(** C2: a conversation of more than five turns comes back in at most
    [ceil(N / 5)] segments.  What comes back is the segment list the loop
    starts from after a number of rounds, each of which merges the earliest
    adjacent pair of least combined size and leaves the other segments in
    place; the loop's guard holds before every round, every round removes
    one segment, so the loop stops after fewer rounds than there are
    segments, and where it stops exactly one segment remains or [N] divided
    by the number of segments is at least 5. *)
Theorem global_reduction :
  (∀ l, 5 < length l →
        let shifts := detect_topic_shifts l DEFAULT_THRESHOLD in
        let start :=
          match shifts with
          | [] => [make_topic l 0]
          | _ => merge_small_topics (raw_topics l shifts)
          end in
        let result := group_qa_into_topics l in
        1 ≤ length result ≤ ceil_div5 (length l)
        ∧ (length result = 1
           ∨ (5 <= pydiv (length l) (length result))%Q)
        ∧ ∃ rounds,
            result = Nat.iter rounds merge_smallest_adjacent_topics start
            ∧ length result + rounds = length start
            ∧ ∀ j, j < rounds →
                   too_many (length l)
                     (Nat.iter j merge_smallest_adjacent_topics start)
                   = true)
  ∧ (∀ topics, 1 < length topics →
        let k := find_merge_idx topics in
        k + 1 < length topics
        ∧ (∀ i, i + 1 < length topics →
                combined_size topics k ≤ combined_size topics i)
        ∧ (∀ i, i < k → combined_size topics k < combined_size topics i)
        ∧ merge_smallest_adjacent_topics topics
          = take k topics
            ++ [make_topic (qa_pairs (topics !!! k)
                            ++ qa_pairs (topics !!! (k + 1))) k]
            ++ drop (k + 2) topics)
  ∧ (∀ n topics fuel, length topics ≤ fuel →
        let result := reduce_loop (length topics) n topics in
        reduce_loop fuel n topics = result
        ∧ too_many n result = false
        ∧ (length result ≤ 1 ∨ (5 <= pydiv n (length result))%Q)
        ∧ (topics ≠ [] →
           1 ≤ length result
           ∧ (length result = 1 ∨ (5 <= pydiv n (length result))%Q))
        ∧ ∃ rounds,
            result = Nat.iter rounds merge_smallest_adjacent_topics topics
            ∧ length result + rounds = length topics
            ∧ ∀ j, j < rounds →
                   too_many n
                     (Nat.iter j merge_smallest_adjacent_topics topics)
                   = true).
Proof.
  split_and!.
  - intros l Hlen shifts start result.
    assert (l ≠ []) as Hl by (destruct l; [simpl in Hlen; lia | done]).
    assert (start ≠ []
            ∧ result = reduce_loop (length start) (length l) start)
      as [Hstart Hresult].
    { unfold start, result, group_qa_into_topics, shifts.
      destruct l as [| qa l]; [done |].
      destruct (Nat.leb_spec (length (qa :: l)) 5); [lia |].
      destruct (detect_topic_shifts (qa :: l) DEFAULT_THRESHOLD)
        as [| s rest] eqn:Hshifts.
      - split; [done |]. simpl. unfold too_many. by simpl.
      - split; [| done]. rewrite <- Hshifts.
        apply merge_small_topics_nonempty;
          by apply raw_topics_nonempty, detect_topic_shifts_in_range. }
    destruct (reduce_loop_rounds (length start) (length l) start
                (Nat.le_refl _))
      as (rounds & Hiter & Hcount & Hbefore & Hexit).
    pose proof (reduce_loop_keeps_one (length start) (length l) start Hstart)
      as Hone.
    rewrite <- Hresult in Hiter, Hcount, Hexit, Hone.
    split_and!.
    + done.
    + apply too_many_false in Hexit as [Hsingle | Hratio].
      * etrans; [exact Hsingle |]. apply (ceil_div5_lower _ 1). lia.
      * by apply ceil_div5_lower.
    + by apply too_many_false_exit.
    + by exists rounds.
  - intros topics Hlen k.
    destruct (find_merge_idx_spec topics Hlen) as (? & ? & ?).
    split_and!; try done.
    by apply merge_smallest_adjacent_topics_spec.
  - intros n topics fuel Hfuel result.
    destruct (reduce_loop_rounds (length topics) n topics (Nat.le_refl _))
      as (rounds & Hiter & Hcount & Hbefore & Hexit).
    fold result in Hiter, Hcount, Hexit.
    split_and!.
    + by apply reduce_loop_fuel.
    + done.
    + pose proof Hexit as Hguard. unfold too_many in Hguard.
      apply andb_false_iff in Hguard as [Hlen%Nat.ltb_ge | Hratio%Qltb_ge];
        [by left | by right].
    + intros Hne.
      pose proof (reduce_loop_keeps_one (length topics) n topics Hne) as Hone.
      fold result in Hone. split; [done |]. by apply too_many_false_exit.
    + by exists rounds.
Qed.
End GrouperFacts.

(** ** The model at work *)

Example findall_words :
  findall (U := ascii_unicode) (cps "hello, the world_x don't caf3 x")
  = cps <$> ["hello"; "the"; "don"; "t"; "x"]%string.
Proof. vm_compute. reflexivity. Qed.

Example extract_keywords_words :
  extract_keywords (U := ascii_unicode)
    (cps "Hello, the World_x don't caf3 x basically Cats") 3
  = cps <$> ["hello"; "cats"]%string.
Proof. vm_compute. reflexivity. Qed.

Example detect_two_topics :
  detect_topic_shifts (U := ascii_unicode) two_topics DEFAULT_THRESHOLD = [5].
Proof. vm_compute. reflexivity. Qed.

Example group_two_topics :
  summary <$> group_qa_into_topics (U := ascii_unicode) two_topics
  = [("Database", 5); ("Travel: Booking", 5)]%string.
Proof. vm_compute. reflexivity. Qed.

Example detect_unrelated_turns :
  detect_topic_shifts (U := ascii_unicode) unrelated_turns DEFAULT_THRESHOLD
  = [1; 2; 3; 4; 5; 6].
Proof. vm_compute. reflexivity. Qed.

Example absorb_unrelated_turns :
  summary <$> merge_small_topics (U := ascii_unicode)
                (raw_topics (U := ascii_unicode) unrelated_turns
                            [1; 2; 3; 4; 5; 6])
  = [("Alpha & Beta", 3); ("Delta & Epsilon", 3); ("Theta", 1)]%string.
Proof. vm_compute. reflexivity. Qed.

Example group_unrelated_turns :
  summary <$> group_qa_into_topics (U := ascii_unicode) unrelated_turns
  = [("Alpha & Beta", 7)]%string.
Proof. vm_compute. reflexivity. Qed.

Example sim_context_returning_topic :
  let kws : list (gset pystr) :=
    get_keyword_set (U := ascii_unicode) <$> returning_topic in
  (sim_context kws 6 == 1 # 2)%Q
  ∧ (calculate_similarity (kws !!! 6%nat) (window_union kws 1 5) == 0)%Q.
Proof. vm_compute. split; reflexivity. Qed.

(** ** The statements at concrete conversations *)

Lemma calculate_similarity_algebra_witness :
  (calculate_similarity {[cps "sql"]} {[cps "sql"]} == 1)%Q
  ∧ calculate_similarity ∅ {[cps "sql"]} = 0%Q.
Proof.
  destruct (calculate_similarity_algebra {[cps "sql"]} {[cps "sql"]})
    as (_ & _ & Hrefl & _).
  destruct (calculate_similarity_algebra ∅ {[cps "sql"]})
    as (_ & _ & _ & Hempty).
  split; [apply Hrefl | apply Hempty; left; reflexivity].
  intros Hnil. vm_compute in Hnil. discriminate Hnil.
Defined.


Lemma extract_keywords_no_text_witness :
  let qa := {| question := None; answer := Some []; timestamp := None |} in
  get_keyword_set (U := ascii_unicode) qa = ∅
  ∧ ∀ other,
      calculate_similarity (get_keyword_set (U := ascii_unicode) qa) other = 0%Q
      ∧ calculate_similarity other (get_keyword_set (U := ascii_unicode) qa)
        = 0%Q.
Proof.
  intros qa.
  destruct (extract_keywords_no_text (U := ascii_unicode))
    as (_ & _ & _ & _ & _ & _ & Hboth).
  apply Hboth; [left | right]; reflexivity.
Defined.

Lemma detect_topic_shifts_shape_witness :
  detect_topic_shifts (U := ascii_unicode) (take 3 unrelated_turns)
                      DEFAULT_THRESHOLD = [].
Proof.
  destruct (detect_topic_shifts_shape (U := ascii_unicode)
              (take 3 unrelated_turns) DEFAULT_THRESHOLD) as (_ & _ & _ & Hshort).
  apply Hshort. simpl. lia.
Defined.


Lemma sim_context_window_witness :
  let kws : list (gset pystr) :=
    get_keyword_set (U := ascii_unicode) <$> returning_topic in
  sim_context kws 6
  = calculate_similarity (kws !!! 6) (window_union kws (max 0 (6 - 6)) (6 - 1)).
Proof.
  intros kws.
  apply (sim_context_window (U := ascii_unicode) returning_topic 6).
  simpl. lia.
Defined.

Lemma short_conversation_witness :
  ∃ t, group_qa_into_topics (U := ascii_unicode) (take 2 unrelated_turns) = [t]
       ∧ qa_pairs t = take 2 unrelated_turns
       ∧ topic_name t
         = generate_topic_name (U := ascii_unicode) (take 2 unrelated_turns) 0.
Proof.
  apply (short_conversation (U := ascii_unicode) (take 2 unrelated_turns)).
  simpl. lia.
Defined.

Lemma segments_nonempty_witness :
  group_qa_into_topics (U := ascii_unicode) unrelated_turns ≠ []
  ∧ Forall nonempty_topic
           (group_qa_into_topics (U := ascii_unicode) unrelated_turns).
Proof.
  destruct (segments_nonempty (U := ascii_unicode)) as (Hgroup & _).
  apply Hgroup. discriminate.
Defined.

Lemma global_reduction_witness :
  length (group_qa_into_topics (U := ascii_unicode) unrelated_turns)
  ≤ ceil_div5 (length unrelated_turns).
Proof.
  destruct (global_reduction (U := ascii_unicode)) as (Hgroup & _).
  assert (5 < length unrelated_turns) as Hlen by (simpl; lia).
  destruct (Hgroup unrelated_turns Hlen) as ([_ Hbound] & _).
  exact Hbound.
Defined.

(** * Further properties of the code *)

(** ** Similarity *)

Lemma pydiv_eq_1 (a b : nat) : 0 < b → (pydiv a b == 1)%Q ↔ a = b.
Proof.
  intros Hb. unfold pydiv, Qeq; simpl. rewrite Zpos_of_nat by done. lia.
Qed.

Lemma pydiv_eq_0 (a b : nat) : (pydiv a b == 0)%Q ↔ a = 0.
Proof. unfold pydiv, Qeq; simpl. lia. Qed.

Lemma size_pos_nonempty (A : gset pystr) : A ≠ ∅ → 0 < size A.
Proof.
  intros HA. destruct (size A) eqn:Hs; [| lia].
  by apply size_empty_inv, leibniz_equiv in Hs.
Qed.

(** The score of two non-empty sets is the quotient of the two sizes. *)
Lemma calculate_similarity_nonempty (A B : gset pystr) :
  A ≠ ∅ → B ≠ ∅ →
  calculate_similarity A B = pydiv (size (A ∩ B)) (size (A ∪ B))
  ∧ 0 < size (A ∪ B).
Proof.
  intros HA HB. unfold calculate_similarity.
  rewrite !bool_decide_eq_false_2 by done. simpl.
  assert (0 < size (A ∪ B)) as Hu.
  { pose proof (size_pos_nonempty A HA).
    assert (size A ≤ size (A ∪ B)) by apply subseteq_size, union_subseteq_l.
    lia. }
  by destruct (Nat.ltb_spec 0 (size (A ∪ B))); [| lia].
Qed.

(** X1: the similarity of two keyword sets is 1 exactly when they are the
    same non-empty set. *)
Theorem calculate_similarity_one (A B : gset pystr) :
  (calculate_similarity A B == 1)%Q ↔ A = B ∧ A ≠ ∅.
Proof.
  split.
  - intros Hone.
    destruct (decide (A = ∅)) as [-> | HA];
      [by rewrite calculate_similarity_empty_l in Hone |].
    destruct (decide (B = ∅)) as [-> | HB];
      [by rewrite calculate_similarity_empty_r in Hone |].
    destruct (calculate_similarity_nonempty A B HA HB) as [Heq Hu].
    rewrite Heq in Hone. apply pydiv_eq_1 in Hone; [| done].
    split; [| done].
    assert (A ∩ B ≡ A ∪ B) as Hsets.
    { apply set_subseteq_size_equiv; [| lia].
      etrans; [apply intersection_subseteq_l | apply union_subseteq_l]. }
    apply set_eq. intros x. specialize (Hsets x).
    rewrite elem_of_intersection, elem_of_union in Hsets. tauto.
  - intros [<- HA]. by apply calculate_similarity_refl.
Qed.

(** X2: the similarity of two keyword sets is 0 exactly when they have no
    keyword in common. *)
Theorem calculate_similarity_zero (A B : gset pystr) :
  (calculate_similarity A B == 0)%Q ↔ A ∩ B = ∅.
Proof.
  destruct (decide (A = ∅)) as [-> | HA].
  { rewrite calculate_similarity_empty_l, (left_absorb_L ∅ (∩)). done. }
  destruct (decide (B = ∅)) as [-> | HB].
  { rewrite calculate_similarity_empty_r, (right_absorb_L ∅ (∩)). done. }
  destruct (calculate_similarity_nonempty A B HA HB) as [-> _].
  rewrite pydiv_eq_0, size_empty_iff. split; [apply leibniz_equiv | by intros ->].
Qed.

(** ** Tokens in the text *)

Lemma substrings_in_order_cons (tokens : list pystr) (c : N) (s : pystr) :
  substrings_in_order tokens s → substrings_in_order tokens (c :: s).
Proof.
  destruct tokens as [| t tokens]; [done |].
  intros (before & after & -> & Hrest). by exists (c :: before), after.
Qed.

Lemma scan_in_order `{U : Unicode} (prev : option N) (skip : nat) (s : pystr) :
  substrings_in_order (scan prev skip s) (drop skip s).
Proof.
  revert prev skip. induction s as [| c s IH]; intros prev skip.
  - by destruct skip.
  - destruct skip as [| k]; [| apply IH]. cbn [scan].
    destruct (match_here prev (c :: s)) as [j |] eqn:Hm.
    + apply match_here_range in Hm. destruct j as [| j]; [lia |].
      exists [], (drop j s). split.
      * simpl. f_equal. symmetry. apply take_drop.
      * replace (S j - 1) with j by lia. apply IH.
    + apply substrings_in_order_cons, (IH (Some c) 0).
Qed.

Lemma substrings_in_order_length (tokens : list pystr) (s : pystr) :
  substrings_in_order tokens s → sum_list (length <$> tokens) ≤ length s.
Proof.
  revert s. induction tokens as [| t tokens IH]; intros s; [simpl; lia |].
  intros (before & after & -> & Hrest%IH).
  change (length t + sum_list (length <$> tokens)
          ≤ length (before ++ t ++ after)).
  rewrite !length_app. lia.
Qed.

(** X3: the words [findall] returns are non-empty runs of pattern
    characters that lie in the text one after the other without overlap, so
    together they are no longer than the text. *)
Theorem findall_in_order `{U : Unicode} (s : pystr) :
  substrings_in_order (findall s) s
  ∧ Forall (λ w, w ≠ [] ∧ Forall (λ c, in_class c = true) w) (findall s)
  ∧ sum_list (length <$> findall s) ≤ length s.
Proof.
  pose proof (scan_in_order None 0 s) as Horder. split_and!.
  - exact Horder.
  - apply Forall_forall. intros w Hw. by eapply scan_tokens.
  - by apply substrings_in_order_length.
Qed.


(** ** What makes a shift *)

Lemma foldl_Qmax_lt (f : nat → Q) (init : Q) (l : list nat) (t : Q) :
  (foldl (λ m j, Qmax m (f j)) init l < t)%Q ↔
  (init < t)%Q ∧ ∀ j, j ∈ l → (f j < t)%Q.
Proof.
  revert init. induction l as [| j l IH]; intros init; simpl.
  - split; [intros ?; split; [done |] | by intros [? _]].
    by intros j ?%elem_of_nil.
  - rewrite IH, Q.max_lub_lt_iff. split.
    + intros [[Hinit Hj] Hl]. split; [done |].
      intros k [-> | Hk]%elem_of_cons; [done | by apply Hl].
    + intros [Hinit Hl]. split_and!; [done | |].
      * apply Hl. by left.
      * intros k Hk. apply Hl. by right.
Qed.

(** The combined score is below a bound exactly when each signal is. *)
Lemma best_similarity_lt (kws : list (gset pystr)) (i : nat) (t : Q) :
  (best_similarity kws i < t)%Q ↔
  (sim_prev kws i < t)%Q
  ∧ (sim_context kws i * (8 # 10) < t)%Q
  ∧ ∀ j, max 0 (i - 3) ≤ j < i →
         (calculate_similarity (kws !!! j) (kws !!! i) < t)%Q.
Proof.
  unfold best_similarity, max_recent_sim.
  rewrite !Q.max_lub_lt_iff,
    (foldl_Qmax_lt (λ j, calculate_similarity (kws !!! j) (kws !!! i))).
  unfold range.
  split.
  - intros [[Hprev Hctx] [_ Hrecent]]. split_and!; [done | done |].
    intros j Hj. apply Hrecent, elem_of_seq. lia.
  - intros (Hprev & Hctx & Hrecent). split_and!; try done.
    intros j Hj%elem_of_seq. apply Hrecent. lia.
Qed.

Section ShiftFacts.
Context `{U : Unicode}.

(** X4: at the default threshold 0.05 an index is reported by the detector
    exactly when the sequence has more than 3 turns, the index is a position
    after the first, the similarity of its turn to the previous turn, to
    each of the three turns before it and (scaled by 0.8) to the rolling
    context are all below 0.05, and the look-ahead does not veto it. *)
Theorem detect_topic_shifts_member (l : list Turn) (i : nat) :
  let kws : list (gset pystr) := get_keyword_set <$> l in
  i ∈ detect_topic_shifts l DEFAULT_THRESHOLD ↔
  3 < length l ∧ 1 ≤ i < length l
  ∧ (sim_prev kws i < DEFAULT_THRESHOLD)%Q
  ∧ (sim_context kws i * (8 # 10) < DEFAULT_THRESHOLD)%Q
  ∧ (∀ j, max 0 (i - 3) ≤ j < i →
          (calculate_similarity (kws !!! j) (kws !!! i)
           < DEFAULT_THRESHOLD)%Q)
  ∧ ¬ (i + 1 < length l
       ∧ (2 * DEFAULT_THRESHOLD
          < calculate_similarity (kws !!! (i + 1)%nat) (kws !!! (i - 1)%nat))%Q).
Proof.
  intros kws. rewrite elem_of_detect_topic_shifts. fold kws.
  unfold is_shift.
  rewrite andb_true_iff, negb_true_iff, Qltb_lt, best_similarity_lt,
    <- not_true_iff_false, next_reconnects_true.
  tauto.
Qed.

(** X5: when every turn is at least as similar to its predecessor as the
    threshold asks, the detector reports nothing, and the orchestrator
    returns the whole (non-empty) conversation as one segment named at
    ordinal 0. *)
Theorem similar_neighbours_one_segment (l : list Turn) :
  let kws : list (gset pystr) := get_keyword_set <$> l in
  (∀ i, 1 ≤ i < length l → (DEFAULT_THRESHOLD <= sim_prev kws i)%Q) →
  detect_topic_shifts l DEFAULT_THRESHOLD = []
  ∧ (l ≠ [] → group_qa_into_topics l = [make_topic l 0]).
Proof.
  intros kws Hsim.
  assert (detect_topic_shifts l DEFAULT_THRESHOLD = []) as Hnone.
  { apply elem_of_nil_inv. intros i Hi.
    apply elem_of_detect_topic_shifts in Hi as (_ & Hrange & Hshift).
    unfold is_shift in Hshift.
    apply andb_true_iff in Hshift as [Hbest%Qltb_lt _].
    apply best_similarity_lt in Hbest as [Hprev _].
    specialize (Hsim i Hrange). by apply Qlt_not_le in Hprev. }
  split; [done |]. intros Hl.
  destruct l as [| qa l]; [done |]. unfold group_qa_into_topics.
  destruct (_ <=? _); [done |]. by rewrite Hnone.
Qed.

End ShiftFacts.

(** ** Number of segments *)

Section CountFacts.
Context `{U : Unicode}.

Lemma slice_loop_length (l : list Turn) (shifts : list nat)
    (topics : list Topic) (prev_idx : nat) :
  length (foldl (slice_body l) (topics, prev_idx) shifts).1
  ≤ length topics + length shifts.
Proof.
  revert topics prev_idx.
  induction shifts as [| shift_idx shifts IH]; intros topics prev_idx; simpl;
    [lia |].
  destruct (prev_idx <? shift_idx).
  - etrans; [apply IH |]. rewrite length_app. simpl. lia.
  - etrans; [apply IH |]. lia.
Qed.

Lemma raw_topics_length_le (l : list Turn) (shifts : list nat) :
  length (raw_topics l shifts) ≤ length shifts + 1.
Proof.
  unfold raw_topics. pose proof (slice_loop_length l shifts [] 0) as Hlen.
  destruct (foldl (slice_body l) ([], 0) shifts) as [topics prev_idx].
  simpl in Hlen. destruct (prev_idx <? length l); [| lia].
  rewrite length_app. simpl. lia.
Qed.

Lemma merge_small_topics_length_le (topics : list Topic) :
  length (merge_small_topics topics) ≤ length topics.
Proof.
  unfold merge_small_topics. destruct (_ <=? _); [done |].
  pose (Inv := λ merged rest : list Topic,
          length merged + length rest ≤ length topics).
  assert (Inv (merge_small_loop [] topics) []) as Hfinal.
  { apply (merge_small_loop_invariant Inv); unfold Inv; [| | | done].
    - intros merged current rest. rewrite length_app. simpl. lia.
    - intros merged prev current rest. rewrite length_insert. simpl. lia.
    - intros merged current next_topic rest. rewrite length_app. simpl. lia. }
  unfold Inv in Hfinal. simpl in Hfinal. lia.
Qed.

Lemma reduce_loop_length_le (fuel n : nat) (topics : list Topic) :
  length (reduce_loop fuel n topics) ≤ length topics.
Proof.
  revert topics. induction fuel as [| fuel IH]; intros topics; simpl; [done |].
  destruct (too_many n topics) eqn:Hguard; [| done].
  apply too_many_true in Hguard as [Hgt _].
  etrans; [apply IH |].
  rewrite merge_smallest_adjacent_topics_length by done. lia.
Qed.

(** X7: no pass adds a segment.  One global merge removes exactly one
    segment from a list of at least two and leaves a shorter list
    untouched; the absorption pass and the reduction loop return at most as
    many segments as they receive; and a conversation comes back in at most
    one segment more than the detector reports shifts. *)
Theorem segment_count_never_grows :
  (∀ topics, length (merge_small_topics topics) ≤ length topics)
  ∧ (∀ topics,
       length (merge_smallest_adjacent_topics topics)
       = if length topics <=? 1 then length topics else length topics - 1)
  ∧ (∀ fuel n topics, length (reduce_loop fuel n topics) ≤ length topics)
  ∧ (∀ l, length (group_qa_into_topics l)
          ≤ length (detect_topic_shifts l DEFAULT_THRESHOLD) + 1).
Proof.
  split_and!.
  - apply merge_small_topics_length_le.
  - intros topics. destruct (Nat.leb_spec (length topics) 1) as [Hle | Hgt].
    + unfold merge_smallest_adjacent_topics.
      by destruct (Nat.leb_spec (length topics) 1); [| lia].
    + by apply merge_smallest_adjacent_topics_length.
  - apply reduce_loop_length_le.
  - intros l.
    destruct (group_qa_into_topics_cases l)
      as [[-> ->] | [[_ ->] | [_ ->]]]; [simpl; lia | simpl; lia |].
    simpl. etrans; [apply reduce_loop_length_le |].
    etrans; [apply merge_small_topics_length_le |].
    apply raw_topics_length_le.
Qed.

(** X8: a conversation of [N] turns comes back in at most [max(1, N // 5)]
    segments; in particular a conversation of fewer than 10 turns is never
    split. *)
Theorem segment_count_floor (l : list Turn) :
  length (group_qa_into_topics l) ≤ max 1 (length l / 5)
  ∧ (length l < 10 → length (group_qa_into_topics l) ≤ 1).
Proof.
  assert (length (group_qa_into_topics l) ≤ 1
          ∨ 5 * length (group_qa_into_topics l) ≤ length l) as Hcount.
  { destruct (group_qa_into_topics_cases l)
      as [[-> ->] | [[_ ->] | [_ ->]]]; [left; simpl; lia.. |].
    simpl. apply too_many_false. by apply reduce_loop_exit. }
  split.
  - destruct Hcount as [Hone | Hratio]; [lia |].
    etrans; [| apply Nat.le_max_r].
    apply Nat.div_le_lower_bound; lia.
  - intros Hshort. lia.
Qed.
End CountFacts.

(** ** Undersized neighbours *)

Lemma no_two_small_snoc (sizes : list nat) (x : nat) :
  no_two_small (sizes ++ [x]) ↔
  no_two_small sizes ∧ ∀ y, last sizes = Some y → 3 ≤ y ∨ 3 ≤ x.
Proof.
  induction sizes as [| a sizes IH].
  - simpl. split; [| done]. intros _. split; [done |]. by intros y [=].
  - destruct sizes as [| b sizes].
    + simpl. split.
      * intros [Hax _]. split; [done |]. by intros y [= <-].
      * intros [_ Hlast]. split; [by apply Hlast | done].
    + change (((3 ≤ a ∨ 3 ≤ b) ∧ no_two_small ((b :: sizes) ++ [x])) ↔
              ((3 ≤ a ∨ 3 ≤ b) ∧ no_two_small (b :: sizes))
              ∧ ∀ y, last (b :: sizes) = Some y → 3 ≤ y ∨ 3 ≤ x).
      rewrite IH. tauto.
Qed.

Lemma no_two_small_merge (before : list nat) (a b : nat) (after : list nat) :
  no_two_small (before ++ a :: b :: after) →
  no_two_small (before ++ (a + b) :: after).
Proof.
  induction before as [| p before IH].
  - simpl. intros [Hab Hrest]. destruct after as [| c after]; [done |].
    destruct Hrest as [Hbc Hrest]. split; [lia | done].
  - destruct before as [| q before].
    + simpl in *. intros [Hpa Hrest]. split; [lia | by apply IH].
    + simpl in *. intros [Hpq Hrest]. split; [done | by apply IH].
Qed.

Section UndersizedFacts.
Context `{U : Unicode}.

(** The invariant principle of the scan, with what each move knows about
    the sizes of [current] and of the last finalised segment. *)
Lemma merge_small_loop_guarded (Inv : list Topic → list Topic → Prop) :
  (∀ merged current rest,
      Inv merged (current :: rest) →
      (3 ≤ length (qa_pairs current)
       ∨ ∀ prev, last merged = Some prev → 3 ≤ length (qa_pairs prev)) →
      Inv (merged ++ [current]) rest) →
  (∀ merged prev current rest,
      Inv merged (current :: rest) →
      length (qa_pairs current) < 3 → last merged = Some prev →
      Inv (<[length merged - 1 :=
               make_topic (qa_pairs prev ++ qa_pairs current)
                          (length merged - 1)]> merged) rest) →
  (∀ merged current next_topic rest,
      Inv merged (current :: next_topic :: rest) →
      length (qa_pairs current) < 3 →
      (∀ prev, last merged = Some prev → 3 ≤ length (qa_pairs prev)) →
      Inv (merged ++ [make_topic (qa_pairs current ++ qa_pairs next_topic)
                                 (length merged)]) rest) →
  ∀ topics merged, Inv merged topics → Inv (merge_small_loop merged topics) [].
Proof.
  intros Hkeep Hprev Hnext topics.
  assert (∀ n topics, length topics ≤ n →
            ∀ merged, Inv merged topics →
                      Inv (merge_small_loop merged topics) []) as Hall.
  { clear topics. induction n as [| n IH]; intros topics Hlen merged Hinv.
    - destruct topics; [done | simpl in Hlen; lia].
    - destruct topics as [| current rest]; [done |].
      simpl in Hlen. simpl.
      assert ((3 ≤ length (qa_pairs current)
               ∨ ∀ prev, last merged = Some prev →
                         3 ≤ length (qa_pairs prev)) →
              Inv (merge_small_loop (merged ++ [current]) rest) []) as Hk.
      { intros Hguard. apply IH; [lia | by apply Hkeep]. }
      assert (length (qa_pairs current) < 3 →
              (∀ prev, last merged = Some prev →
                       3 ≤ length (qa_pairs prev)) →
              Inv
                match rest with
                | [] => merge_small_loop (merged ++ [current]) rest
                | next_topic :: rest' =>
                    if Qltb (2 # 100) (group_similarity current next_topic)
                    then merge_small_loop
                           (merged ++ [make_topic (qa_pairs current
                                                   ++ qa_pairs next_topic)
                                                  (length merged)]) rest'
                    else merge_small_loop (merged ++ [current]) rest
                end []) as Hn.
      { intros Hsmall Hbig.
        destruct rest as [| next_topic rest']; [apply Hk; by right |].
        destruct (Qltb _ _); [| apply Hk; by right].
        apply IH; [simpl in Hlen; lia | by apply Hnext]. }
      destruct (Nat.ltb_spec (length (qa_pairs current)) 3) as [Hsmall | Hbig];
        [| apply Hk; by left].
      destruct (last merged) as [prev |] eqn:Hlast; [| by apply Hn].
      destruct (Qltb _ _); simpl.
      + apply IH; [lia | by apply Hprev].
      + destruct (Nat.ltb_spec (length (qa_pairs prev)) 3) as [Hps | Hpb].
        * apply IH; [lia | by apply Hprev].
        * apply Hn; [done |]. by intros ? [= <-]. }
  by apply (Hall (length topics)).
Qed.

Lemma topic_sizes_snoc (topics : list Topic) (t : Topic) :
  topic_sizes (topics ++ [t]) = topic_sizes topics ++ [length (qa_pairs t)].
Proof. unfold topic_sizes. by rewrite fmap_app. Qed.

Lemma topic_sizes_last (topics : list Topic) (y : nat) :
  last (topic_sizes topics) = Some y →
  ∃ t, last topics = Some t ∧ y = length (qa_pairs t).
Proof.
  unfold topic_sizes. rewrite fmap_last.
  destruct (last topics) as [t |]; [| done]. intros [= <-]. by exists t.
Qed.

Lemma merge_small_topics_no_two_small (topics : list Topic) :
  no_two_small (topic_sizes (merge_small_topics topics)).
Proof.
  unfold merge_small_topics.
  destruct (Nat.leb_spec (length topics) 1) as [Hle | Hgt].
  { destruct topics as [| t [| t' topics]]; [done | done | simpl in Hle; lia]. }
  pose (Inv := λ merged rest : list Topic, no_two_small (topic_sizes merged)).
  apply (merge_small_loop_guarded Inv); unfold Inv; [| | | done].
  - intros merged current rest Hinv Hguard.
    rewrite topic_sizes_snoc. apply no_two_small_snoc. split; [done |].
    intros y (prev & Hlast & ->)%topic_sizes_last.
    destruct Hguard as [Hbig | Hbig]; [by right | left; by apply Hbig].
  - intros merged prev current rest Hinv _ Hlast.
    destruct (insert_last merged prev
      (make_topic (qa_pairs prev ++ qa_pairs current) (length merged - 1))
      Hlast) as (init & Hmerged & ->).
    rewrite Hmerged, topic_sizes_snoc in Hinv.
    apply no_two_small_snoc in Hinv as [Hinit Hpair].
    rewrite topic_sizes_snoc. apply no_two_small_snoc. split; [done |].
    intros y Hy. specialize (Hpair y Hy). simpl. rewrite length_app. lia.
  - intros merged current next_topic rest Hinv _ Hbig.
    rewrite topic_sizes_snoc. apply no_two_small_snoc. split; [done |].
    intros y (prev & Hlast & ->)%topic_sizes_last. left. by apply Hbig.
Qed.

Lemma merge_smallest_adjacent_topics_no_two_small (topics : list Topic) :
  no_two_small (topic_sizes topics) →
  no_two_small (topic_sizes (merge_smallest_adjacent_topics topics)).
Proof.
  intros Hinv.
  destruct (Nat.le_gt_cases (length topics) 1) as [Hle | Hgt].
  - unfold merge_smallest_adjacent_topics.
    by destruct (Nat.leb_spec (length topics) 1); [| lia].
  - rewrite merge_smallest_adjacent_topics_spec by done.
    destruct (find_merge_idx_spec topics Hgt) as (Hk & _).
    set (k := find_merge_idx topics) in *.
    rewrite (split_at_pair topics k Hk) in Hinv.
    unfold topic_sizes in *. rewrite fmap_app, !fmap_cons in Hinv.
    rewrite !fmap_app, fmap_cons. cbn [fmap list_fmap app].
    cbn [make_topic qa_pairs]. rewrite length_app.
    by apply no_two_small_merge.
Qed.

Lemma reduce_loop_no_two_small (fuel n : nat) (topics : list Topic) :
  no_two_small (topic_sizes topics) →
  no_two_small (topic_sizes (reduce_loop fuel n topics)).
Proof.
  revert topics. induction fuel as [| fuel IH]; intros topics Hinv; simpl;
    [done |].
  destruct (too_many n topics); [| done].
  by apply IH, merge_smallest_adjacent_topics_no_two_small.
Qed.

(** X9: after the absorption pass no two neighbouring segments both have
    fewer than 3 turns, whatever the input; a global merge keeps this, and
    so it holds of every segment list the orchestrator returns. *)
Theorem undersized_segments_never_adjacent :
  (∀ topics, no_two_small (topic_sizes (merge_small_topics topics)))
  ∧ (∀ topics,
       no_two_small (topic_sizes topics) →
       no_two_small (topic_sizes (merge_smallest_adjacent_topics topics)))
  ∧ (∀ l, no_two_small (topic_sizes (group_qa_into_topics l))).
Proof.
  split_and!.
  - apply merge_small_topics_no_two_small.
  - apply merge_smallest_adjacent_topics_no_two_small.
  - intros l.
    destruct (group_qa_into_topics_cases l)
      as [[-> ->] | [[_ ->] | [_ ->]]]; [done | done |].
    simpl. apply reduce_loop_no_two_small, merge_small_topics_no_two_small.
Qed.
End UndersizedFacts.

(** ** Where the names come from *)

Section NamingFacts.
Context `{U : Unicode}.

Lemma make_topic_named (group : list Turn) (index : nat) :
  named_from_own_turns (make_topic group index).
Proof. by exists index. Qed.

Lemma slice_loop_named (l : list Turn) (shifts : list nat)
    (topics : list Topic) (prev_idx : nat) :
  Forall named_from_own_turns topics →
  Forall named_from_own_turns
         (foldl (slice_body l) (topics, prev_idx) shifts).1.
Proof.
  revert topics prev_idx.
  induction shifts as [| shift_idx shifts IH]; intros topics prev_idx Hinv;
    simpl; [done |].
  destruct (prev_idx <? shift_idx); [| by apply IH].
  apply IH, Forall_app. split; [done |].
  apply Forall_singleton, make_topic_named.
Qed.

Lemma raw_topics_named (l : list Turn) (shifts : list nat) :
  Forall named_from_own_turns (raw_topics l shifts).
Proof.
  unfold raw_topics.
  pose proof (slice_loop_named l shifts [] 0 (Forall_nil_2 _)) as Hinv.
  destruct (foldl (slice_body l) ([], 0) shifts) as [topics prev_idx].
  simpl in Hinv. destruct (prev_idx <? length l); [| done].
  apply Forall_app. split; [done |].
  apply Forall_singleton, make_topic_named.
Qed.

Lemma merge_small_topics_named (topics : list Topic) :
  Forall named_from_own_turns topics →
  Forall named_from_own_turns (merge_small_topics topics).
Proof.
  intros Hall. unfold merge_small_topics. destruct (_ <=? _); [done |].
  pose (Inv := λ merged rest : list Topic,
          Forall named_from_own_turns merged
          ∧ Forall named_from_own_turns rest).
  assert (Inv (merge_small_loop [] topics) []) as [Hfinal _]; [| done].
  apply (merge_small_loop_invariant Inv); unfold Inv; [| | | done].
  - intros merged current rest (Hm & [Hc Hr]%Forall_cons).
    split; [| done]. apply Forall_app. by split; [| apply Forall_singleton].
  - intros merged prev current rest (Hm & [Hc Hr]%Forall_cons) Hlast.
    destruct (insert_last merged prev
      (make_topic (qa_pairs prev ++ qa_pairs current) (length merged - 1))
      Hlast) as (init & Hmerged & ->).
    rewrite Hmerged in Hm. apply Forall_app in Hm as [Hinit _].
    split; [| done]. apply Forall_app. split; [done |].
    apply Forall_singleton, make_topic_named.
  - intros merged current next_topic rest
      (Hm & (Hc & [Hn Hr]%Forall_cons)%Forall_cons).
    split; [| done]. apply Forall_app. split; [done |].
    apply Forall_singleton, make_topic_named.
Qed.

Lemma merge_smallest_adjacent_topics_named (topics : list Topic) :
  Forall named_from_own_turns topics →
  Forall named_from_own_turns (merge_smallest_adjacent_topics topics).
Proof.
  intros Hall.
  destruct (Nat.le_gt_cases (length topics) 1) as [Hle | Hgt].
  - unfold merge_smallest_adjacent_topics.
    by destruct (Nat.leb_spec (length topics) 1); [| lia].
  - rewrite merge_smallest_adjacent_topics_spec by done.
    apply Forall_app. split; [by apply Forall_take |].
    apply Forall_cons. split; [apply make_topic_named | by apply Forall_drop].
Qed.

Lemma reduce_loop_named (fuel n : nat) (topics : list Topic) :
  Forall named_from_own_turns topics →
  Forall named_from_own_turns (reduce_loop fuel n topics).
Proof.
  revert topics. induction fuel as [| fuel IH]; intros topics Hall; simpl;
    [done |].
  destruct (too_many n topics); [| done].
  by apply IH, merge_smallest_adjacent_topics_named.
Qed.

(** X10: every segment the orchestrator returns carries the name the namer
    gives to exactly that segment's turns (at some ordinal): no name
    survives a merge, and both merge passes keep this. *)
Theorem names_follow_turns :
  (∀ l, Forall named_from_own_turns (group_qa_into_topics l))
  ∧ (∀ topics, Forall named_from_own_turns topics →
               Forall named_from_own_turns (merge_small_topics topics))
  ∧ (∀ topics, Forall named_from_own_turns topics →
               Forall named_from_own_turns
                      (merge_smallest_adjacent_topics topics)).
Proof.
  split_and!.
  - intros l.
    destruct (group_qa_into_topics_cases l)
      as [[-> ->] | [[_ ->] | [_ ->]]];
      [done | apply Forall_singleton, make_topic_named |].
    simpl.
    apply reduce_loop_named, merge_small_topics_named, raw_topics_named.
  - apply merge_small_topics_named.
  - apply merge_smallest_adjacent_topics_named.
Qed.
End NamingFacts.

(** ** What a name depends on *)

Lemma counter_add_nonempty (w : pystr) (c : list (pystr * nat)) :
  counter_add w c ≠ [].
Proof. destruct c as [| [k v] c]; simpl; [done |]. by destruct (decide _). Qed.

Lemma Counter_nonempty (words : list pystr) : words ≠ [] → Counter words ≠ [].
Proof.
  unfold Counter. intros Hwords.
  assert (∀ c : list (pystr * nat), c ≠ [] ∨ words ≠ [] →
            foldl (λ c w, counter_add w c) c words ≠ []) as Hgen.
  { clear Hwords. induction words as [| w words IH]; intros c Hc; simpl.
    - by destruct Hc.
    - apply IH. left. apply counter_add_nonempty. }
  apply Hgen. by right.
Qed.

Lemma insert_by_count_length (kv : pystr * nat) (sorted : list (pystr * nat)) :
  length (insert_by_count kv sorted) = S (length sorted).
Proof.
  induction sorted as [| x sorted IH]; simpl; [done |].
  destruct (_ <? _); simpl; by rewrite ?IH.
Qed.

Lemma most_common_length (n : nat) (c : list (pystr * nat)) :
  length (most_common n c) = min n (length c).
Proof.
  unfold most_common. rewrite length_take. f_equal.
  assert (∀ acc : list (pystr * nat),
            length (foldl (λ sorted kv, insert_by_count kv sorted) acc c)
            = length acc + length c) as Hgen.
  { induction c as [| kv c IH]; intros acc; simpl; [lia |].
    rewrite IH, insert_by_count_length. lia. }
  apply (Hgen []).
Qed.

Section NameInputs.
Context `{U : Unicode}.

Lemma all_keywords_concat (l : list Turn) (acc : list pystr) :
  foldl (λ acc qa, acc ++ keywords_of (question qa)) acc l
  = acc ++ concat (keywords_of <$> (question <$> l)).
Proof.
  revert acc. induction l as [| qa l IH]; intros acc; simpl.
  - by rewrite app_nil_r.
  - by rewrite IH, <- app_assoc.
Qed.

(** X11: the name of a segment is made from the question texts alone: two
    groups of turns with the same questions, whatever their answers and
    timestamps, get the same name. *)
Theorem generate_topic_name_questions_only (l1 l2 : list Turn) (index : nat) :
  question <$> l1 = question <$> l2 →
  generate_topic_name l1 index = generate_topic_name l2 index.
Proof.
  intros Hq. unfold generate_topic_name.
  by rewrite !all_keywords_concat, Hq.
Qed.

(** X12: the ordinal enters a name only as the fallback: a group none of
    whose questions yields a keyword is called [Discussion] followed by the
    ordinal plus one, and a group with a keyword in some question gets the
    same name at every ordinal. *)
Theorem generate_topic_name_ordinal (l : list Turn) (index : nat) :
  (Forall (λ qa, keywords_of (question qa) = []) l →
   generate_topic_name l index = cps "Discussion " ++ str_of_nat (index + 1))
  ∧ (Exists (λ qa, keywords_of (question qa) ≠ []) l →
     ∀ index', generate_topic_name l index = generate_topic_name l index').
Proof.
  split.
  - intros Hnone. unfold generate_topic_name.
    rewrite all_keywords_concat.
    assert (concat (keywords_of <$> (question <$> l)) = []) as ->;
      [| reflexivity].
    induction Hnone as [| qa l Hqa _ IH]; [done |].
    change (keywords_of (question qa)
            ++ concat (keywords_of <$> (question <$> l)) = []).
    by rewrite Hqa, IH.
  - intros Hsome index'. unfold generate_topic_name.
    rewrite all_keywords_concat.
    assert (concat (keywords_of <$> (question <$> l)) ≠ []) as Hne.
    { induction Hsome as [qa l Hqa | qa l _ IH];
        change (keywords_of (question qa)
                ++ concat (keywords_of <$> (question <$> l)) ≠ []).
      - by intros [? _]%app_eq_nil.
      - by intros [_ ?]%app_eq_nil. }
    rewrite app_nil_l.
    destruct (concat _) as [| w ws] eqn:Hws; [done |].
    destruct (max_by_value _); [reflexivity |].
    pose proof (most_common_length 5 (Counter (w :: ws))) as Hlen.
    pose proof (Counter_nonempty (w :: ws) ltac:(done)) as Hcount.
    destruct (most_common 5 (Counter (w :: ws))) as [| kv [| kv' top]];
      [| reflexivity | reflexivity].
    destruct (Counter (w :: ws)); [done | simpl in Hlen; lia].
Qed.
End NameInputs.

(** ** Where the raw segments are cut *)

Lemma zip_with_shifted_snoc {A} (f : nat → nat → A) (a : nat)
    (shifts : list nat) (n : nat) :
  zip_with f (a :: shifts) (shifts ++ [n])
  = zip_with f (a :: shifts) shifts ++ [f (default a (last shifts)) n].
Proof.
  revert a. induction shifts as [| s shifts IH]; intros a; [done |].
  change (f a s :: zip_with f (s :: shifts) (shifts ++ [n])
          = f a s :: (zip_with f (s :: shifts) shifts
                      ++ [f (default a (last (s :: shifts))) n])).
  rewrite IH. do 3 f_equal.
  rewrite last_cons. by destruct (last shifts).
Qed.

Section CutFacts.
Context `{U : Unicode}.

Lemma slice_loop_cut (l : list Turn) (shifts : list nat)
    (topics : list Topic) (prev_idx : nat) :
  StronglySorted lt (prev_idx :: shifts) →
  foldl (slice_body l) (topics, prev_idx) shifts
  = (topics ++ imap (λ k group, make_topic group (length topics + k))
                    (zip_with (slice l) (prev_idx :: shifts) shifts),
     default prev_idx (last shifts)).
Proof.
  revert topics prev_idx.
  induction shifts as [| s shifts IH]; intros topics prev_idx Hsorted.
  - simpl. by rewrite app_nil_r.
  - apply StronglySorted_inv in Hsorted as [Hrest Hprev].
    apply Forall_cons in Hprev as [Hlt _].
    cbn [foldl slice_body].
    destruct (Nat.ltb_spec prev_idx s) as [_ | ?]; [| lia].
    rewrite IH by done. f_equal.
    + change (zip_with (slice l) (prev_idx :: s :: shifts) (s :: shifts))
        with (slice l prev_idx s :: zip_with (slice l) (s :: shifts) shifts).
      rewrite imap_cons, <- app_assoc. cbn [app].
      rewrite Nat.add_0_r. do 2 f_equal.
      apply imap_ext. intros k group _. rewrite length_app. simpl.
      f_equal. lia.
    + rewrite last_cons. by destruct (last shifts).
Qed.

(** X13: given the indices of a detector result (strictly increasing,
    between 1 and the last position) the slicing cuts a non-empty
    conversation exactly there: segment [k] runs from the [k]-th boundary
    to the next one, the boundaries being 0, the shifts and the length, and
    it is named at ordinal [k]. *)
Theorem raw_topics_cut (l : list Turn) (shifts : list nat) :
  l ≠ [] →
  StronglySorted lt shifts →
  Forall (λ i, 1 ≤ i < length l) shifts →
  raw_topics l shifts
  = imap (λ k group, make_topic group k)
         (zip_with (slice l) (0 :: shifts) (shifts ++ [length l])).
Proof.
  intros Hl Hsorted Hrange. unfold raw_topics.
  assert (0 < length l) as Hlen by (destruct l; [done | simpl; lia]).
  rewrite slice_loop_cut.
  2:{ apply SSorted_cons; [done |].
      eapply Forall_impl; [exact Hrange |]. simpl. lia. }
  assert (default 0 (last shifts) < length l) as Hlast.
  { destruct (last shifts) as [s |] eqn:Hs; [| done]. simpl.
    apply last_Some in Hs as [init ->].
    apply Forall_app in Hrange as [_ [? _]%Forall_cons]. lia. }
  destruct (Nat.ltb_spec (default 0 (last shifts)) (length l)); [| lia].
  rewrite zip_with_shifted_snoc, imap_app. cbn [app length].
  rewrite length_imap. f_equal. cbn [imap].
  rewrite Nat.add_0_r. unfold slice_from, slice.
  by rewrite (take_ge (drop _ _)) by (rewrite length_drop; lia).
Qed.
End CutFacts.

(** ** The stage over an archive *)

Section ArchiveFacts.
Context `{U : Unicode} {R : Type}.

Implicit Types (conv : Conversation R) (st : Counters).

Lemma count_topics_cons conv (conversations : list (Conversation R)) :
  count_topics (conv :: conversations)
  = (topic_count conv + (count_topics conversations).1,
     (if 1 <? topic_count conv then 1 else 0)
     + (count_topics conversations).2).
Proof.
  unfold count_topics. rewrite filter_cons. simpl. f_equal.
  destruct (Nat.ltb_spec 1 (topic_count conv));
    destruct (decide (1 < topic_count conv)); simpl; lia.
Qed.

Lemma count_topics_app (a b : list (Conversation R)) :
  count_topics (a ++ b)
  = ((count_topics a).1 + (count_topics b).1,
     (count_topics a).2 + (count_topics b).2).
Proof.
  induction a as [| conv a IH]; [done |].
  rewrite <- app_comm_cons, !count_topics_cons, IH. simpl. f_equal; lia.
Qed.

Lemma process_convs_eq (conversations : list (Conversation R)) st :
  process_convs conversations st
  = (with_topics <$> conversations,
     (st.1 + (count_topics (with_topics <$> conversations)).1,
      st.2 + (count_topics (with_topics <$> conversations)).2)).
Proof.
  revert st. induction conversations as [| conv rest IH]; intros [t m].
  - simpl. f_equal. f_equal; lia.
  - cbn [process_convs]. unfold process_conv. rewrite IH.
    rewrite fmap_cons, count_topics_cons. cbn [fst snd].
    change (topic_count (with_topics conv))
      with (length (group_qa_into_topics (default [] (conv_qa_pairs conv)))).
    f_equal. destruct (1 <? _); f_equal; lia.
Qed.

Lemma process_subs_eq (subs : list (pystr * list (Conversation R))) st :
  process_subs subs st
  = (with_topics_sub <$> subs,
     (st.1 + (count_topics (with_topics <$> concat (snd <$> subs))).1,
      st.2 + (count_topics (with_topics <$> concat (snd <$> subs))).2)).
Proof.
  revert st. induction subs as [| [sub_cat conversations] rest IH];
    intros [t m].
  - simpl. f_equal. f_equal; lia.
  - cbn [process_subs]. rewrite process_convs_eq, IH.
    rewrite !fmap_cons. cbn [concat snd fst]. rewrite fmap_app, count_topics_app.
    cbn [fst snd]. f_equal. f_equal; lia.
Qed.

Lemma broad_conversations_with_topics (broad_data : BroadCategory R) :
  broad_conversations (with_topics_broad broad_data)
  = with_topics <$> broad_conversations broad_data.
Proof.
  unfold broad_conversations, with_topics_broad. simpl.
  destruct (sub_categories broad_data) as [subs |]; [| done]. simpl.
  induction subs as [| [sub_cat conversations] subs IH]; [done |].
  rewrite !fmap_cons. cbn [concat snd with_topics_sub].
  by rewrite fmap_app, IH.
Qed.

Lemma hierarchy_conversations_with_topics
    (broads : list (pystr * BroadCategory R)) :
  hierarchy_conversations (with_topics_entry <$> broads)
  = with_topics <$> hierarchy_conversations broads.
Proof.
  unfold hierarchy_conversations.
  induction broads as [| [broad_cat broad_data] broads IH]; [done |].
  rewrite !fmap_cons. cbn [concat snd with_topics_entry].
  by rewrite fmap_app, IH, broad_conversations_with_topics.
Qed.

Lemma process_broads_eq (broads : list (pystr * BroadCategory R)) st :
  process_broads broads st
  = if decide (well_keyed broads) then
      Returned
        (with_topics_entry <$> broads,
         (st.1 + (count_topics
                    (with_topics <$> hierarchy_conversations broads)).1,
          st.2 + (count_topics
                    (with_topics <$> hierarchy_conversations broads)).2))
    else KeyError "sub_categories".
Proof.
  revert st. unfold well_keyed.
  induction broads as [| [broad_cat broad_data] rest IH]; intros [t m].
  - rewrite decide_True by constructor. simpl. do 2 f_equal. f_equal; lia.
  - cbn [process_broads].
    destruct (sub_categories broad_data) as [subs |] eqn:Hsubs.
    + rewrite process_subs_eq, IH. cbn [fst snd].
      destruct (decide (Forall _ rest)) as [Hrest | Hrest].
      * rewrite decide_True by (constructor; [simpl; congruence | done]).
        change (hierarchy_conversations ((broad_cat, broad_data) :: rest))
          with (broad_conversations broad_data ++ hierarchy_conversations rest).
        rewrite fmap_cons, fmap_app, count_topics_app. cbn [fst snd].
        assert (with_topics_entry (broad_cat, broad_data)
                = (broad_cat,
                   {| sub_categories := Some (with_topics_sub <$> subs);
                      broad_rest := broad_rest broad_data |})) as ->.
        { unfold with_topics_entry, with_topics_broad. simpl.
          by rewrite Hsubs. }
        assert (broad_conversations broad_data = concat (snd <$> subs)) as ->.
        { unfold broad_conversations. by rewrite Hsubs. }
        do 2 f_equal. f_equal; lia.
      * rewrite decide_False; [done |]. by intros [_ ?]%Forall_cons.
    + rewrite decide_False; [done |].
      intros [Hkey _]%Forall_cons. simpl in Hkey. congruence.
Qed.

(** The whole function, by cases on what the archive holds. *)
Lemma process_conversations_eq (data : Data R) :
  process_conversations data
  = if decide (well_keyed (default [] (hierarchy data))) then
      match data_summary data with
      | None => KeyError "summary"
      | Some s =>
          let counts :=
            count_topics (with_topics <$> conversations_of data) in
          Returned
            {| hierarchy := with_topics_hierarchy (hierarchy data);
               data_summary :=
                 Some {| total_topics := Some counts.1;
                         conversations_with_multiple_topics := Some counts.2;
                         summary_rest := summary_rest s |};
               data_rest := data_rest data |}
      end
    else KeyError "sub_categories".
Proof.
  unfold process_conversations, conversations_of.
  destruct (hierarchy data) as [broads |]; cbn [with_topics_hierarchy].
  - change (default [] (Some broads)) with broads.
    rewrite process_broads_eq. destruct (decide (well_keyed broads)); [| done].
    cbn [fst snd Nat.add]. by destruct (data_summary data).
  - change (default [] (@None (list (pystr * BroadCategory R)))) with
      (@nil (pystr * BroadCategory R)).
    rewrite decide_True by constructor. by destruct (data_summary data).
Qed.

Lemma not_well_keyed (broads : list (pystr * BroadCategory R)) :
  ¬ well_keyed broads ↔ Exists (λ kb, sub_categories kb.2 = None) broads.
Proof.
  unfold well_keyed. split.
  - intros Hnot. apply not_Forall_Exists in Hnot; [| apply _].
    eapply Exists_impl; [exact Hnot |]. simpl. intros kb Hkb.
    destruct (sub_categories kb.2); [| done]. by destruct Hkb.
  - intros (kb & Hin & Hnone)%Exists_exists Hall.
    rewrite Forall_forall in Hall. by apply (Hall kb Hin).
Qed.

(** X14: the stage raises [KeyError] on ["sub_categories"] exactly when
    some broad category lacks that key, and on ["summary"] exactly when
    every category has it but the archive has no summary; in every other
    case, an archive without a ["hierarchy"] included, it returns. *)
Theorem process_conversations_raises (data : Data R) :
  (process_conversations data = KeyError "sub_categories" ↔
   Exists (λ kb, sub_categories kb.2 = None) (default [] (hierarchy data)))
  ∧ (process_conversations data = KeyError "summary" ↔
     well_keyed (default [] (hierarchy data)) ∧ data_summary data = None)
  ∧ ((∃ data', process_conversations data = Returned data') ↔
     well_keyed (default [] (hierarchy data)) ∧ data_summary data ≠ None).
Proof.
  rewrite process_conversations_eq, <- not_well_keyed.
  destruct (decide (well_keyed (default [] (hierarchy data)))) as [Hk | Hk].
  - destruct (data_summary data) as [s |]; cbv zeta; split_and!.
    + split; [discriminate | by intros []].
    + split; [discriminate | by intros [_ [=]]].
    + split; [by intros _ | intros _; by eexists].
    + split; [discriminate | by intros []].
    + by split.
    + split; [by intros [? [=]] | by intros [_ []]].
  - split_and!.
    + by split.
    + split; [discriminate | by intros [? _]].
    + split; [by intros [? [=]] | by intros [? _]].
Qed.

(** X15: when the stage returns, every conversation carries under
    ["topics"] the segmentation of its own ["qa_pairs"] (of the empty list
    if it has none), nothing else in the hierarchy or beside it has
    changed, and the summary holds the number of all segments and the
    number of conversations with more than one segment. *)
Theorem process_conversations_result (data data' : Data R) :
  process_conversations data = Returned data' →
  hierarchy data' = with_topics_hierarchy (hierarchy data)
  ∧ conversations_of data' = with_topics <$> conversations_of data
  ∧ data_rest data' = data_rest data
  ∧ ∃ s, data_summary data = Some s
         ∧ data_summary data'
           = Some {| total_topics :=
                       Some (sum_list (topic_count <$> conversations_of data'));
                     conversations_with_multiple_topics :=
                       Some (length (filter (λ conv, 1 < topic_count conv)
                                            (conversations_of data')));
                     summary_rest := summary_rest s |}.
Proof.
  rewrite process_conversations_eq.
  destruct (decide _) as [Hk | Hk]; [| done].
  destruct (data_summary data) as [s |] eqn:Hs; [| done].
  cbv zeta. intros [= Heq].
  assert (hierarchy data' = with_topics_hierarchy (hierarchy data)) as Hh
    by by rewrite <- Heq.
  assert (conversations_of data' = with_topics <$> conversations_of data)
    as Hconvs.
  { unfold conversations_of. rewrite Hh.
    destruct (hierarchy data) as [broads |]; [| done].
    apply hierarchy_conversations_with_topics. }
  split_and!; [done | done | by rewrite <- Heq |].
  exists s. split; [done |]. rewrite Hconvs. by rewrite <- Heq.
Qed.

Lemma with_topics_idemp conv : with_topics (with_topics conv) = with_topics conv.
Proof. done. Qed.

Lemma with_topics_entry_idemp (broads : list (pystr * BroadCategory R)) :
  with_topics_entry <$> (with_topics_entry <$> broads)
  = with_topics_entry <$> broads.
Proof.
  rewrite <- list_fmap_compose. apply list_fmap_ext.
  intros _ [broad_cat broad_data] _.
  unfold with_topics_entry, with_topics_broad. simpl. do 2 f_equal.
  destruct (sub_categories broad_data) as [subs |]; [| done]. f_equal.
  rewrite <- list_fmap_compose. apply list_fmap_ext.
  intros _ [sub_cat conversations] _. unfold with_topics_sub. simpl. f_equal.
  rewrite <- list_fmap_compose. by apply list_fmap_ext.
Qed.

Lemma with_topics_entry_well_keyed (broads : list (pystr * BroadCategory R)) :
  well_keyed broads → well_keyed (with_topics_entry <$> broads).
Proof.
  unfold well_keyed. rewrite !Forall_forall.
  intros Hk kb (kb0 & -> & Hin)%list_elem_of_fmap.
  specialize (Hk kb0 Hin). simpl.
  by destruct (sub_categories kb0.2).
Qed.

(** X16: running the stage on what it returned changes nothing: the same
    topics and the same totals are written again. *)
Theorem process_conversations_idempotent (data data' : Data R) :
  process_conversations data = Returned data' →
  process_conversations data' = Returned data'.
Proof.
  rewrite !process_conversations_eq.
  destruct (decide _) as [Hk | Hk]; [| done].
  destruct (data_summary data) as [s |] eqn:Hs; [| done].
  intros [= <-]. cbn [hierarchy data_summary data_rest summary_rest].
  unfold conversations_of. cbn [hierarchy].
  destruct (hierarchy data) as [broads |] eqn:Hh;
    cbn [with_topics_hierarchy default] in *.
  - change (default [] (Some ?x)) with x in *.
    rewrite decide_True by by apply with_topics_entry_well_keyed.
    cbv zeta. unfold id. rewrite with_topics_entry_idemp.
    rewrite hierarchy_conversations_with_topics.
    rewrite <- (list_fmap_compose with_topics with_topics).
    by rewrite (list_fmap_ext (with_topics ∘ with_topics) with_topics)
      by done.
  - rewrite decide_True by constructor. done.
Qed.

Lemma group_qa_into_topics_count (l : list Turn) :
  (l ≠ [] → 1 ≤ length (group_qa_into_topics l))
  ∧ length (group_qa_into_topics l) ≤ length l
  ∧ (1 < length (group_qa_into_topics l) →
     5 * length (group_qa_into_topics l) ≤ length l).
Proof.
  destruct (group_qa_into_topics_cases l)
    as [[-> ->] | [[Hl ->] | [Hlen ->]]].
  - split_and!; [done | done | simpl; lia].
  - split_and!; [simpl; lia | | simpl; lia].
    destruct l; [done | simpl; lia].
  - cbv zeta.
    assert (l ≠ []) as Hl by (destruct l; [simpl in Hlen; lia | done]).
    destruct (raw_topics_nonempty l (detect_topic_shifts l DEFAULT_THRESHOLD)
                Hl (detect_topic_shifts_in_range _ _)) as [Hraw Hraw_all].
    destruct (merge_small_topics_nonempty _ Hraw Hraw_all)
      as [Hmerged Hmerged_all].
    set (merged := merge_small_topics _) in *.
    destruct (reduce_loop_nonempty (length merged) (length l) merged
                Hmerged Hmerged_all) as [Hne _].
    pose proof (reduce_loop_exit (length merged) (length l) merged
                  (Nat.le_refl _)) as Hexit.
    apply too_many_false in Hexit.
    destruct (reduce_loop (length merged) (length l) merged) as [| t ts];
      [done |].
    simpl in *. lia.
Qed.

Lemma conversation_counts conv :
  (0 < turn_count conv → 1 ≤ topic_count (with_topics conv))
  ∧ topic_count (with_topics conv) ≤ turn_count conv
  ∧ (1 < topic_count (with_topics conv) → 10 ≤ turn_count conv).
Proof.
  unfold topic_count, turn_count, with_topics. simpl.
  destruct (group_qa_into_topics_count (default [] (conv_qa_pairs conv)))
    as (Hpos & Hle & Hmany).
  split_and!; [| done | lia].
  intros Hturns. apply Hpos. intros Hnil. rewrite Hnil in Hturns.
  simpl in Hturns. lia.
Qed.

Lemma count_topics_bounds (conversations : list (Conversation R)) :
  let counts := count_topics (with_topics <$> conversations) in
  length (filter (λ conv, 0 < turn_count conv) conversations) ≤ counts.1
  ∧ counts.1 ≤ sum_list (turn_count <$> conversations)
  ∧ counts.2 ≤ length (filter (λ conv, 10 ≤ turn_count conv) conversations)
  ∧ 2 * counts.2 ≤ counts.1.
Proof.
  induction conversations as [| conv rest IH]; [simpl; lia |].
  cbv zeta in *. rewrite fmap_cons, count_topics_cons, !filter_cons.
  destruct (conversation_counts conv) as (Hpos & Hle & Hmany).
  cbn [fst snd]. rewrite fmap_cons.
  change (sum_list (turn_count conv :: (turn_count <$> rest)))
    with (turn_count conv + sum_list (turn_count <$> rest)).
  unfold count_topics in *. cbn [fst snd] in *.
  destruct (decide (0 < turn_count conv)), (decide (10 ≤ turn_count conv)),
    (Nat.ltb_spec 1 (topic_count (with_topics conv)));
    cbn [length]; lia.
Qed.

(** X17: when the stage returns, the total it stores is at least the number
    of conversations that have a turn and at most the number of all turns,
    and the number of conversations with several segments is at most the
    number of conversations with 10 turns or more, and at most half the
    total. *)
Theorem process_conversations_totals (data data' : Data R) :
  process_conversations data = Returned data' →
  ∃ s total multiple,
    data_summary data' = Some s
    ∧ total_topics s = Some total
    ∧ conversations_with_multiple_topics s = Some multiple
    ∧ length (filter (λ conv, 0 < turn_count conv) (conversations_of data))
      ≤ total
    ∧ total ≤ sum_list (turn_count <$> conversations_of data)
    ∧ multiple
      ≤ length (filter (λ conv, 10 ≤ turn_count conv) (conversations_of data))
    ∧ 2 * multiple ≤ total.
Proof.
  rewrite process_conversations_eq.
  destruct (decide _) as [Hk | Hk]; [| done].
  destruct (data_summary data) as [s |] eqn:Hs; [| done].
  cbv zeta. intros [= <-]. eexists _, _, _.
  split_and!; [done | done | done | ..];
    apply (count_topics_bounds (conversations_of data)).
Qed.
End ArchiveFacts.

(** ** The further properties at concrete inputs *)

Example process_sample_archive :
  ∃ s, data_summary sample_archive_processed = Some s
       ∧ total_topics s = Some 3
       ∧ conversations_with_multiple_topics s = Some 1.
Proof. eexists. vm_compute. by split_and!. Qed.

Lemma similar_neighbours_one_segment_witness :
  detect_topic_shifts (U := ascii_unicode) one_topic DEFAULT_THRESHOLD = []
  ∧ (one_topic ≠ [] →
     group_qa_into_topics (U := ascii_unicode) one_topic
     = [make_topic (U := ascii_unicode) one_topic 0]).
Proof.
  apply (similar_neighbours_one_segment (U := ascii_unicode) one_topic).
  intros i Hi. simpl in Hi.
  destruct i as [| [| [| [| [| [| i]]]]]]; try lia;
    vm_compute; intros Hgt; discriminate Hgt.
Defined.


Lemma generate_topic_name_questions_only_witness :
  generate_topic_name (U := ascii_unicode) [turn "database schema" "sql"] 0
  = generate_topic_name (U := ascii_unicode)
      [turn "database schema" "travel flight booking"] 0.
Proof.
  apply (generate_topic_name_questions_only (U := ascii_unicode)).
  reflexivity.
Defined.

Lemma raw_topics_cut_witness :
  raw_topics (U := ascii_unicode) two_topics [5]
  = imap (λ k group, make_topic (U := ascii_unicode) group k)
         (zip_with (slice two_topics) [0; 5] [5; length two_topics]).
Proof.
  apply (raw_topics_cut (U := ascii_unicode) two_topics [5]).
  - discriminate.
  - repeat constructor.
  - repeat constructor; simpl; lia.
Defined.

Lemma process_conversations_result_witness :
  hierarchy sample_archive_processed
  = with_topics_hierarchy (U := ascii_unicode) (hierarchy sample_archive)
  ∧ conversations_of sample_archive_processed
    = with_topics (U := ascii_unicode) <$> conversations_of sample_archive
  ∧ data_rest sample_archive_processed = data_rest sample_archive
  ∧ ∃ s, data_summary sample_archive = Some s
         ∧ data_summary sample_archive_processed
           = Some {| total_topics :=
                       Some (sum_list
                               (topic_count
                                  <$> conversations_of sample_archive_processed));
                     conversations_with_multiple_topics :=
                       Some (length
                               (filter (λ conv, 1 < topic_count conv)
                                  (conversations_of sample_archive_processed)));
                     summary_rest := summary_rest s |}.
Proof.
  apply (process_conversations_result (U := ascii_unicode)).
  vm_compute. reflexivity.
Defined.

Lemma process_conversations_idempotent_witness :
  process_conversations (U := ascii_unicode) sample_archive_processed
  = Returned sample_archive_processed.
Proof.
  apply (process_conversations_idempotent (U := ascii_unicode) sample_archive).
  vm_compute. reflexivity.
Defined.

Lemma process_conversations_totals_witness :
  ∃ s total multiple,
    data_summary sample_archive_processed = Some s
    ∧ total_topics s = Some total
    ∧ conversations_with_multiple_topics s = Some multiple
    ∧ length (filter (λ conv, 0 < turn_count conv)
                     (conversations_of sample_archive)) ≤ total
    ∧ total ≤ sum_list (turn_count <$> conversations_of sample_archive)
    ∧ multiple
      ≤ length (filter (λ conv, 10 ≤ turn_count conv)
                       (conversations_of sample_archive))
    ∧ 2 * multiple ≤ total.
Proof.
  apply (process_conversations_totals (U := ascii_unicode) sample_archive).
  vm_compute. reflexivity.
Defined.
